(** * Mission evaluation: a shallow embedding of [MissionConfig]

    The development follows [server/auvsi_suas/models/mission_config.py].
    Python floats are IEEE binary64 values and are modelled by the kernel's
    primitive floats; Python dictionaries are finite maps; the Django query
    sets the methods iterate over are lists of rows.  The models imported by
    [mission_config.py] (telemetry, fly zones, obstacles, access logs) are
    interfaces here: their methods are the fields of type classes. *)

From Stdlib Require Import ZArith List Floats.
From stdpp Require Import base option list sorting gmap strings pretty.

#[local] Set Warnings "-register-all".

Local Open Scope Z_scope.

(** ** Rows of the models the mission refers to *)

(** [GpsPosition]: latitude and longitude in decimal degrees. *)
Record GpsPosition := {
  latitude : float;
  longitude : float
}.

(** [AerialPosition]: a GPS position with an altitude (MSL, feet). *)
Record AerialPosition := {
  gps_position : GpsPosition;
  altitude_msl : float
}.

(** [Waypoint]: a position with its rank in the waypoint path. *)
Record Waypoint := {
  waypoint_pk : Z;
  position : AerialPosition;
  order : Z
}.

(** [django.contrib.auth.models.User], the columns the evaluation reads. *)
Record User := {
  user_pk : Z;
  username : string;
  is_superuser : bool
}.

(** The columns of [MissionConfig] read by the methods modelled below
    ([server_info] is a foreign key that none of them follows). *)
Record MissionConfig := {
  pk : Z;
  is_active : bool;
  home_pos : GpsPosition;
  mission_waypoints_dist_max : float;
  mission_waypoints : list Waypoint;
  search_grid_points : list Waypoint;
  emergent_last_known_pos : GpsPosition;
  off_axis_target_pos : GpsPosition;
  sric_pos : GpsPosition;
  ir_primary_target_pos : GpsPosition;
  ir_secondary_target_pos : GpsPosition;
  air_drop_pos : GpsPosition
}.

(** A [(max, avg)] tuple as returned by the [rates] class methods; either
    component is [None] when undefined. *)
Definition Rates : Type := option float * option float.

(** ** Interfaces of the imported models *)

(** [UasTelemetry], [TakeoffOrLandingEvent], [FlyZone] and the two access
    logs, as [evaluate_teams] and [satisfied_waypoints] call them.  [Log] is
    a telemetry row, [Period] a [TimePeriod], [Zone] a [FlyZone] row. *)
Class Models (Log Period Zone : Type) := {
  uas_position : Log → AerialPosition;
  distance_to : AerialPosition → AerialPosition → float;
  TakeoffOrLandingEvent_flights : User → list Period;
  UasTelemetry_by_time_period : User → list Period → list (list Log);
  UasTelemetry_dedupe : list (list Log) → list (list Log);
  UasTelemetry_rates : User → list Period → list (list Log) → Rates;
  ServerInfoAccessLog_rates : User → list Period → Rates;
  ObstacleAccessLog_rates : User → list Period → Rates;
  FlyZone_out_of_bounds : list Zone → list Log → float
}.

(** What [StationaryObstacle] and [MovingObstacle] share: a primary key and
    [evaluate_collision_with_uas]. *)
Class Obstacle (O Log : Type) := {
  obst_pk : O → Z;
  evaluate_collision_with_uas : O → list Log → bool
}.

(** ** [order_by('order')] *)

(** Insertion of a row in a list sorted by [order], before the rows of
    equal [order]. *)
Fixpoint insert_by_order (w : Waypoint) (ws : list Waypoint) : list Waypoint :=
  match ws with
  | [] => [w]
  | w' :: rest =>
      if Z.leb (order w) (order w') then w :: ws
      else w' :: insert_by_order w rest
  end.

(** The rows by ascending [order]; rows of equal [order] stay in the order
    in which the table lists them (the sort is stable: each row, taken from
    the last to the first, is put before the rows of equal [order]). *)
Definition order_by_order (ws : list Waypoint) : list Waypoint :=
  foldr insert_by_order [] ws.

(** Rows by ascending [order]. *)
Definition ascending (ws : list Waypoint) : Prop :=
  Sorted (λ w w', order w ≤ order w') ws.

(** ** [MissionConfig.satisfied_waypoints] *)

Section SatisfiedWaypoints.
Context {Log Period Zone : Type} `{!Models Log Period Zone}.

(** The inner loop: scan the logs until one is closer to the waypoint than
    the threshold ([break]). *)
Fixpoint scan_logs (dist_max : float) (waypoint : Waypoint)
    (uas_telemetry_logs : list Log) : bool :=
  match uas_telemetry_logs with
  | [] => false
  | uas_log :: rest =>
      let distance := distance_to (uas_position uas_log) (position waypoint) in
      if PrimFloat.ltb distance dist_max then true
      else scan_logs dist_max waypoint rest
  end.

(** The outer loop, appending one boolean per waypoint. *)
Fixpoint waypoints_loop (dist_max : float) (waypoints : list Waypoint)
    (uas_telemetry_logs : list Log) (waypoints_satisfied : list bool)
    : list bool :=
  match waypoints with
  | [] => waypoints_satisfied
  | waypoint :: rest =>
      let satisfied := scan_logs dist_max waypoint uas_telemetry_logs in
      waypoints_loop dist_max rest uas_telemetry_logs
        (waypoints_satisfied ++ [satisfied])
  end.

Definition satisfied_waypoints (self : MissionConfig)
    (uas_telemetry_logs : list Log) : list bool :=
  let waypoints := order_by_order (mission_waypoints self) in
  waypoints_loop (mission_waypoints_dist_max self) waypoints
    uas_telemetry_logs [].

(** The any-match predicate the scan decides. *)
Definition within (dist_max : float) (waypoint : Waypoint) (uas_log : Log)
    : bool :=
  PrimFloat.ltb
    (distance_to (uas_position uas_log) (position waypoint)) dist_max.

End SatisfiedWaypoints.

(** ** [MissionConfig.evaluate_teams] *)

(** The evaluation data of one user: a dictionary with (at most) these five
    keys; a key that has not been assigned yet is [None]. *)
Record EvalData := {
  waypoints_satisfied : option (gmap Z bool);
  out_of_bounds_time : option float;
  interop_times : option (gmap string (gmap string (option float)));
  stationary_obst_collision : option (gmap Z bool);
  moving_obst_collision : option (gmap Z bool)
}.

(** The empty dictionary [{}]. *)
Definition empty_eval_data : EvalData :=
  {| waypoints_satisfied := None;
     out_of_bounds_time := None;
     interop_times := None;
     stationary_obst_collision := None;
     moving_obst_collision := None |}.

(** The tables [evaluate_teams] reads with [objects.all()]. *)
Record Database (Zone SObst MObst : Type) := {
  User_objects_all : list User;
  FlyZone_objects_all : list Zone;
  StationaryObstacle_objects_all : list SObst;
  MovingObstacle_objects_all : list MObst
}.
Arguments User_objects_all {_ _ _} _.
Arguments FlyZone_objects_all {_ _ _} _.
Arguments StationaryObstacle_objects_all {_ _ _} _.
Arguments MovingObstacle_objects_all {_ _ _} _.

(** [for i, hit in enumerate(waypoints_hit): waypoints_keyed[i + 1] = hit] *)
Fixpoint enumerate_hits (i : Z) (waypoints_hit : list bool)
    (waypoints_keyed : gmap Z bool) : gmap Z bool :=
  match waypoints_hit with
  | [] => waypoints_keyed
  | hit :: rest => enumerate_hits (i + 1) rest (<[i + 1 := hit]> waypoints_keyed)
  end.

(** [{'max': times[0], 'avg': times[1]}] *)
Definition max_avg (times : Rates) : gmap string (option float) :=
  <["avg" := times.2]> (<["max" := times.1]> ∅).

(** [for obst in obstacles: collisions[obst.pk] =
    obst.evaluate_collision_with_uas(uas_logs)]; the loop is written twice in
    the source, once for each kind of obstacle. *)
Fixpoint collisions_loop {O Log : Type} `{!Obstacle O Log}
    (obstacles : list O) (uas_logs : list Log) (collisions : gmap Z bool)
    : gmap Z bool :=
  match obstacles with
  | [] => collisions
  | obst :: rest =>
      let collision := evaluate_collision_with_uas obst uas_logs in
      collisions_loop rest uas_logs (<[obst_pk obst := collision]> collisions)
  end.

Section EvaluateTeams.
Context {Log Period Zone SObst MObst : Type}.
Context `{!Models Log Period Zone}.
Context `{!Obstacle SObst Log} `{!Obstacle MObst Log}.

(** [for logs in uas_period_logs: out_of_bounds_time +=
    FlyZone.out_of_bounds(fly_zones, logs)].  The accumulator starts at the
    integer [0], which the first addition promotes to a float. *)
Fixpoint out_of_bounds_loop (fly_zones : list Zone)
    (uas_period_logs : list (list Log)) (out_of_bounds_time : float) : float :=
  match uas_period_logs with
  | [] => out_of_bounds_time
  | logs :: rest =>
      out_of_bounds_loop fly_zones rest
        (PrimFloat.add out_of_bounds_time (FlyZone_out_of_bounds fly_zones logs))
  end.

(** The body of the loop over users once the user is known not to be an
    administrator.  [eval_data] is the dictionary [results.setdefault(user,
    {})] returned; the result is that dictionary after the body has run. *)
Definition evaluate_user (self : MissionConfig)
    (fly_zones : list Zone) (stationary_obstacles : list SObst)
    (moving_obstacles : list MObst) (user : User) (eval_data : EvalData)
    : EvalData :=
  (* Find the user's flights. *)
  let flight_periods := TakeoffOrLandingEvent_flights user in
  let uas_period_logs :=
    UasTelemetry_dedupe (UasTelemetry_by_time_period user flight_periods) in
  let uas_logs := concat uas_period_logs in
  (* Determine if the uas hit the waypoints. *)
  let waypoints_hit := satisfied_waypoints self uas_logs in
  let waypoints_keyed := enumerate_hits 0 waypoints_hit ∅ in
  (* Determine if the uas went out of bounds. *)
  let out_of_bounds_time :=
    out_of_bounds_loop fly_zones uas_period_logs 0%float in
  (* Determine interop rates. *)
  let interop_times := default ∅ (interop_times eval_data) in
  let server_info_times := ServerInfoAccessLog_rates user flight_periods in
  let obstacle_times := ObstacleAccessLog_rates user flight_periods in
  let uas_telemetry_times :=
    UasTelemetry_rates user flight_periods uas_period_logs in
  let interop_times := <["server_info" := max_avg server_info_times]> interop_times in
  let interop_times := <["obst_info" := max_avg obstacle_times]> interop_times in
  let interop_times := <["uas_telem" := max_avg uas_telemetry_times]> interop_times in
  (* Determine collisions with stationary and moving obstacles. *)
  let stationary_collisions :=
    collisions_loop stationary_obstacles uas_logs
      (default ∅ (stationary_obst_collision eval_data)) in
  let moving_collisions :=
    collisions_loop moving_obstacles uas_logs
      (default ∅ (moving_obst_collision eval_data)) in
  {| waypoints_satisfied := Some waypoints_keyed;
     out_of_bounds_time := Some out_of_bounds_time;
     interop_times := Some interop_times;
     stationary_obst_collision := Some stationary_collisions;
     moving_obst_collision := Some moving_collisions |}.

(** [for user in users: ...].  The results dictionary is keyed by the user
    row; a Django model instance hashes and compares by its primary key, so
    the map is keyed by [user_pk]. *)
Fixpoint users_loop (self : MissionConfig)
    (fly_zones : list Zone) (stationary_obstacles : list SObst)
    (moving_obstacles : list MObst) (users : list User)
    (results : gmap Z EvalData) : gmap Z EvalData :=
  match users with
  | [] => results
  | user :: rest =>
      if is_superuser user then
        (* Ignore admins. *)
        users_loop self fly_zones stationary_obstacles moving_obstacles rest
          results
      else
        let eval_data := default empty_eval_data (results !! user_pk user) in
        users_loop self fly_zones stationary_obstacles moving_obstacles rest
          (<[user_pk user :=
               evaluate_user self fly_zones stationary_obstacles
                 moving_obstacles user eval_data]> results)
  end.

Definition evaluate_teams (self : MissionConfig)
    (db : Database Zone SObst MObst) : gmap Z EvalData :=
  let fly_zones := FlyZone_objects_all db in
  let stationary_obstacles := StationaryObstacle_objects_all db in
  let moving_obstacles := MovingObstacle_objects_all db in
  let users := User_objects_all db in
  users_loop self fly_zones stationary_obstacles moving_obstacles users ∅.

(** The telemetry the evaluators of one user work on. *)
Definition uas_period_logs_of (user : User) : list (list Log) :=
  UasTelemetry_dedupe
    (UasTelemetry_by_time_period user (TakeoffOrLandingEvent_flights user)).

Definition uas_logs_of (user : User) : list Log :=
  concat (uas_period_logs_of user).

End EvaluateTeams.

(** Primary keys identify rows: no two rows of a table share one. *)
Definition unique_pks {Zone SObst MObst Log : Type}
    `{!Obstacle SObst Log} `{!Obstacle MObst Log}
    (db : Database Zone SObst MObst) : Prop :=
  NoDup (user_pk <$> User_objects_all db) ∧
  NoDup (obst_pk <$> StationaryObstacle_objects_all db) ∧
  NoDup (obst_pk <$> MovingObstacle_objects_all db).

(** ** [MissionConfig.kml] *)

(** The part of [simplekml] the export drives: a container holds features,
    and a feature records the attributes the export assigns. *)
Inductive Color :=
| black
| green
| blue
| changealphaint (alpha : Z) (color : Color).

Inductive AltitudeMode := absolute.

(** A coordinate tuple: [(longitude, latitude)] or [(longitude, latitude,
    altitude)]. *)
Definition Coord : Type := float * float * option float.

Inductive Feature :=
| Point (name : string) (coords : list Coord) (description : string)
    (altitudemode : option AltitudeMode) (extrude : option Z)
    (visibility : option bool)
| LineString (name : string) (coords : list Coord)
    (altitudemode : option AltitudeMode) (extrude : option Z)
    (linecolor polycolor : option Color)
| Polygon (name : string) (outerboundaryis : list Coord)
    (linecolor : option Color) (linewidth : option Z)
    (polycolor : option Color)
| Folder (name : string) (features : list Feature).

(** Python exceptions the export can raise. *)
Inductive Exception := IndexError.

(** How a call ends. *)
Inductive Outcome (A : Type) :=
| Returned (value : A)
| Raised (exc : Exception).
Arguments Returned {A} value.
Arguments Raised {A} exc.

(** [l[i]] for a non-negative index. *)
Definition getitem {A : Type} (l : list A) (i : nat) : Outcome A :=
  match l !! i with
  | Some x => Returned x
  | None => Raised IndexError
  end.

(** [str(point)] and [str(waypoint)], defined by the rows' models. *)
Class Describe := {
  str_GpsPosition : GpsPosition → string;
  str_Waypoint : Waypoint → string
}.

Section Kml.
Context `{!Describe}.

(** The coordinate tuple of a waypoint row. *)
Definition coord_of (waypoint : Waypoint) : Coord :=
  let gps := gps_position (position waypoint) in
  (longitude gps, latitude gps, Some (altitude_msl (position waypoint))).

(** The static points, in the order the dictionary literal lists them (the
    iteration order of a Python 2 dictionary is left to the interpreter). *)
Definition locations (self : MissionConfig) : list (string * GpsPosition) :=
  [("Home Position", home_pos self);
   ("Emergent LKP", emergent_last_known_pos self);
   ("Off Axis", off_axis_target_pos self);
   ("SRIC", sric_pos self);
   ("IR Primary", ir_primary_target_pos self);
   ("IR Secondary", ir_secondary_target_pos self);
   ("Air Drop", air_drop_pos self)].

Definition static_point (entry : string * GpsPosition) : Feature :=
  let '(key, point) := entry in
  let gps := (longitude point, latitude point, None) in
  Point key [gps] (str_GpsPosition point) None None None.

(** The loop over the mission waypoints: the coordinates collected so far,
    the markers added to the folder, and [waypoint_num]. *)
Fixpoint kml_waypoints_loop (points : list Waypoint)
    (waypoints : list Coord) (markers : list Feature) (waypoint_num : Z)
    : list Coord * list Feature :=
  match points with
  | [] => (waypoints, markers)
  | waypoint :: rest =>
      let coord := coord_of waypoint in
      let wp := Point (pretty waypoint_num) [coord] (str_Waypoint waypoint)
                  (Some absolute) (Some 1) (Some false) in
      kml_waypoints_loop rest (waypoints ++ [coord]) (markers ++ [wp])
        (waypoint_num + 1)
  end.

(** The loop over the search grid points. *)
Fixpoint kml_search_area_loop (points : list Waypoint)
    (search_area : list Coord) (markers : list Feature) (search_area_num : Z)
    : list Coord * list Feature :=
  match points with
  | [] => (search_area, markers)
  | point :: rest =>
      let coord := coord_of point in
      let wp := Point (pretty search_area_num) [coord] (str_Waypoint point)
                  None None (Some false) in
      kml_search_area_loop rest (search_area ++ [coord]) (markers ++ [wp])
        (search_area_num + 1)
  end.

(** [kml(self, kml)]: the container after the call, and how the call ended.
    The container is updated in place, so what was added before an exception
    stays in it. *)
Definition kml (self : MissionConfig) (container : list Feature)
    : list Feature * Outcome unit :=
  let mission_name := "Mission " +:+ pretty (pk self) in
  (* Static Points *)
  let static_points := static_point <$> locations self in
  (* Waypoints *)
  let '(waypoints, waypoint_markers) :=
    kml_waypoints_loop (mission_waypoints self) [] [] 1 in
  let linestring :=
    LineString "Waypoints" waypoints (Some absolute) (Some 1)
      (Some black) (Some (changealphaint 100 green)) in
  let waypoints_folder := Folder "Waypoints" (linestring :: waypoint_markers) in
  (* Search Area *)
  let '(search_area, boundary_markers) :=
    kml_search_area_loop (search_grid_points self) [] [] 1 in
  match getitem search_area 0 with
  | Raised exc =>
      let pol := Polygon "Search Area" [] None None None in
      let search_area_folder := Folder "Search Area" (pol :: boundary_markers) in
      (container ++
         [Folder mission_name
            (static_points ++ [waypoints_folder; search_area_folder])],
       Raised exc)
  | Returned first =>
      let search_area := search_area ++ [first] in
      let pol :=
        Polygon "Search Area" search_area (Some black) (Some 2)
          (Some (changealphaint 50 blue)) in
      let search_area_folder := Folder "Search Area" (pol :: boundary_markers) in
      (container ++
         [Folder mission_name
            (static_points ++ [waypoints_folder; search_area_folder])],
       Returned tt)
  end.

(** [kml_all(cls, kml)], over the missions [MissionConfig.objects.all()]
    returned: an exception ends the loop. *)
Fixpoint kml_all (missions : list MissionConfig) (container : list Feature)
    : list Feature * Outcome unit :=
  match missions with
  | [] => (container, Returned tt)
  | mission :: rest =>
      match kml mission container with
      | (container', Returned _) => kml_all rest container'
      | (container', Raised exc) => (container', Raised exc)
      end
  end.

End Kml.

(** The name a feature was created with. *)
Definition feature_name (feature : Feature) : string :=
  match feature with
  | Point name _ _ _ _ _ => name
  | LineString name _ _ _ _ _ => name
  | Polygon name _ _ _ _ => name
  | Folder name _ => name
  end.

(** ** [MissionConfig.json] *)

(** The values [json] builds: integers, booleans, floats, lists and
    dictionaries with string keys. *)
Inductive JsonValue :=
| JInt (z : Z)
| JBool (b : bool)
| JFloat (x : float)
| JList (items : list JsonValue)
| JDict (items : gmap string JsonValue).

(** [{"latitude": pos.latitude, "longitude": pos.longitude}] *)
Definition gps_json (pos : GpsPosition) : JsonValue :=
  JDict (<["longitude" := JFloat (longitude pos)]>
           (<["latitude" := JFloat (latitude pos)]> ∅)).

(** The dictionary appended for one waypoint row. *)
Definition waypoint_json (waypoint : Waypoint) : JsonValue :=
  JDict (<["order" := JInt (order waypoint)]>
           (<["altitude_msl" := JFloat (altitude_msl (position waypoint))]>
              (<["longitude" :=
                   JFloat (longitude (gps_position (position waypoint)))]>
                 (<["latitude" :=
                      JFloat (latitude (gps_position (position waypoint)))]>
                    (<["id" := JInt (waypoint_pk waypoint)]> ∅))))).

(** [l.append(item)] on the value stored under a key; the keys the loops
    below append to hold lists. *)
Definition list_append (item : JsonValue) (l : JsonValue) : JsonValue :=
  match l with
  | JList items => JList (items ++ [item])
  | _ => l
  end.

(** [for waypoint in points: ret[key].append({...})] *)
Fixpoint json_append_loop (key : string) (points : list Waypoint)
    (ret : gmap string JsonValue) : gmap string JsonValue :=
  match points with
  | [] => ret
  | waypoint :: rest =>
      json_append_loop key rest
        (alter (list_append (waypoint_json waypoint)) key ret)
  end.

Definition json (self : MissionConfig) : gmap string JsonValue :=
  let ret : gmap string JsonValue :=
    <["air_drop_pos" := gps_json (air_drop_pos self)]>
    (<["ir_secondary_target_pos" := gps_json (ir_secondary_target_pos self)]>
    (<["ir_primary_target_pos" := gps_json (ir_primary_target_pos self)]>
    (<["sric_pos" := gps_json (sric_pos self)]>
    (<["off_axis_target_pos" := gps_json (off_axis_target_pos self)]>
    (<["emergent_last_known_pos" := gps_json (emergent_last_known_pos self)]>
    (<["search_grid_points" := JList []]>
    (<["mission_waypoints" := JList []]>
    (<["mission_waypoints_dist_max" :=
         JFloat (mission_waypoints_dist_max self)]>
    (<["home_pos" := gps_json (home_pos self)]>
    (<["active" := JBool (is_active self)]>
    (<["id" := JInt (pk self)]> ∅))))))))))) in
  let ret := json_append_loop "mission_waypoints" (mission_waypoints self) ret in
  json_append_loop "search_grid_points" (search_grid_points self) ret.

(** ** The shape of an evaluation record *)

(** A record with all five keys, whose interop times have the three classes
    and, for each class, the two statistics. *)
Definition full_record (eval_data : EvalData) : Prop :=
  is_Some (waypoints_satisfied eval_data) ∧
  is_Some (out_of_bounds_time eval_data) ∧
  (∃ times,
     interop_times eval_data = Some times ∧
     (∀ class, is_Some (times !! class) ↔
        class = "server_info" ∨ class = "obst_info" ∨ class = "uas_telem") ∧
     (∀ class entry, times !! class = Some entry →
        ∀ stat, is_Some (entry !! stat) ↔ stat = "max" ∨ stat = "avg")) ∧
  is_Some (stationary_obst_collision eval_data) ∧
  is_Some (moving_obst_collision eval_data).

(** ** A concrete competition

    The interfaces instantiated on a line: a telemetry row is the aircraft's
    coordinate along the line (feet), and the distance between two positions
    is the absolute difference of their latitudes. *)
Module Scenario.

Definition on_line (x : float) : AerialPosition :=
  {| gps_position := {| latitude := x; longitude := 0%float |};
     altitude_msl := 0%float |}.

Definition line_distance (a b : AerialPosition) : float :=
  PrimFloat.abs
    (PrimFloat.sub (latitude (gps_position a)) (latitude (gps_position b))).

(** Consecutive equal rows collapse to the first. *)
Fixpoint dedupe_logs (logs : list float) : list float :=
  match logs with
  | [] => []
  | x :: rest =>
      match rest with
      | [] => [x]
      | y :: _ => if PrimFloat.eqb x y then dedupe_logs rest
                  else x :: dedupe_logs rest
      end
  end.

(** Only the user of key 2 has flown: one flight, three telemetry rows. *)
Definition flights_of (user : User) : list unit :=
  if user_pk user =? 2 then [tt] else [].

Definition telemetry_of (user : User) (periods : list unit)
    : list (list float) :=
  (λ _, if user_pk user =? 2 then [10; 10; 30]%float else []) <$> periods.

Definition rates_of (user : User) (periods : list unit) : Rates :=
  match periods with
  | [] => (None, None)
  | _ => (Some 10%float, Some 7.5%float)
  end.

Definition telemetry_rates_of (user : User) (periods : list unit)
    (time_period_logs : list (list float)) : Rates :=
  match concat time_period_logs with
  | _ :: _ :: _ => (Some 1%float, Some 1%float)
  | _ => (None, None)
  end.

(** Half a second out of bounds for every row reported. *)
Definition half_second_each (zones : list unit) (logs : list float) : float :=
  foldr (λ _ acc, PrimFloat.add acc 0.5%float) 0%float logs.

#[export] Instance line_models : Models float unit unit := {|
  uas_position := on_line;
  distance_to := line_distance;
  TakeoffOrLandingEvent_flights := flights_of;
  UasTelemetry_by_time_period := telemetry_of;
  UasTelemetry_dedupe := fmap dedupe_logs;
  UasTelemetry_rates := telemetry_rates_of;
  ServerInfoAccessLog_rates := rates_of;
  ObstacleAccessLog_rates := rates_of;
  FlyZone_out_of_bounds := half_second_each
|}.

(** An obstacle on the line: its key, its centre and its radius. *)
Record Disc := { disc_pk : Z; disc_centre : float; disc_radius : float }.

Definition disc_hit (obst : Disc) (logs : list float) : bool :=
  existsb
    (λ x, PrimFloat.ltb
            (PrimFloat.abs (PrimFloat.sub x (disc_centre obst)))
            (disc_radius obst))
    logs.

(** Stationary and moving obstacles are rows of different tables. *)
Inductive Moving := moving (d : Disc).

#[export] Instance stationary_disc : Obstacle Disc float := {|
  obst_pk := disc_pk;
  evaluate_collision_with_uas := disc_hit
|}.

#[export] Instance moving_disc : Obstacle Moving float := {|
  obst_pk := λ '(moving d), disc_pk d;
  evaluate_collision_with_uas := λ '(moving d), disc_hit d
|}.

Definition admin : User :=
  {| user_pk := 1; username := "admin"; is_superuser := true |}.
Definition team : User :=
  {| user_pk := 2; username := "team"; is_superuser := false |}.
Definition idle : User :=
  {| user_pk := 3; username := "idle"; is_superuser := false |}.

Definition tower : Disc :=
  {| disc_pk := 7; disc_centre := 31%float; disc_radius := 2%float |}.
Definition balloon : Moving :=
  moving {| disc_pk := 7; disc_centre := 20%float; disc_radius := 2%float |}.

Definition db : Database unit Disc Moving :=
  {| User_objects_all := [admin; team; idle];
     FlyZone_objects_all := [];
     StationaryObstacle_objects_all := [tower];
     MovingObstacle_objects_all := [balloon] |}.

(** The same tables with the users listed in another order. *)
Definition db_reordered : Database unit Disc Moving :=
  {| User_objects_all := [idle; admin; team];
     FlyZone_objects_all := [];
     StationaryObstacle_objects_all := [tower];
     MovingObstacle_objects_all := [balloon] |}.

Definition origin : GpsPosition :=
  {| latitude := 0%float; longitude := 0%float |}.

Definition waypoint_at (key ord : Z) (x : float) : Waypoint :=
  {| waypoint_pk := key; position := on_line x; order := ord |}.

Definition mission_with (waypoints grid : list Waypoint) : MissionConfig :=
  {| pk := 1;
     is_active := true;
     home_pos := origin;
     mission_waypoints_dist_max := 5%float;
     mission_waypoints := waypoints;
     search_grid_points := grid;
     emergent_last_known_pos := origin;
     off_axis_target_pos := origin;
     sric_pos := origin;
     ir_primary_target_pos := origin;
     ir_secondary_target_pos := origin;
     air_drop_pos := origin |}.

(** Waypoints of orders 1 and 2, at 12 ft and at 35 ft; the second is at
    exactly the threshold distance from the row at 30 ft. *)
Definition mission : MissionConfig :=
  mission_with [waypoint_at 21 2 35%float; waypoint_at 20 1 12%float] [].

(** Waypoints of orders 1 and 3: unique and ascending, with a gap. *)
Definition mission_gap : MissionConfig :=
  mission_with [waypoint_at 20 1 12%float; waypoint_at 21 3 31%float] [].

#[export] Instance describe : Describe := {|
  str_GpsPosition := λ _, "GpsPosition";
  str_Waypoint := λ _, "Waypoint"
|}.

(** A mission with a search grid of three points. *)
Definition mission_grid : MissionConfig :=
  mission_with [waypoint_at 21 2 35%float; waypoint_at 20 1 12%float]
    [waypoint_at 30 1 0%float; waypoint_at 31 2 40%float;
     waypoint_at 32 3 20%float].

End Scenario.

(** * Properties *)

(** ** Floats *)

(** Python's [==] and [<] on floats exclude one another. *)
Lemma float_eqb_not_ltb (x y : float) :
  PrimFloat.eqb x y = true → PrimFloat.ltb x y = false.
Proof.
  rewrite FloatAxioms.eqb_spec, FloatAxioms.ltb_spec.
  unfold SpecFloat.SFeqb, SpecFloat.SFltb.
  by destruct (SpecFloat.SFcompare _ _) as [[]|].
Qed.

(** ** [order_by('order')] returns the rows it was given, by ascending order *)

Lemma insert_by_order_perm (w : Waypoint) (ws : list Waypoint) :
  insert_by_order w ws ≡ₚ w :: ws.
Proof.
  induction ws as [|w' ws IH]; simpl; [done|].
  destruct (Z.leb_spec (order w) (order w')); [done|].
  rewrite IH. apply Permutation_swap.
Qed.

Lemma order_by_order_perm (ws : list Waypoint) : order_by_order ws ≡ₚ ws.
Proof.
  induction ws as [|w ws IH]; simpl; [done|].
  by rewrite insert_by_order_perm, IH.
Qed.

Lemma order_by_order_length (ws : list Waypoint) :
  length (order_by_order ws) = length ws.
Proof. by rewrite order_by_order_perm. Qed.

Lemma insert_by_order_hd (w w0 : Waypoint) (ws : list Waypoint) :
  order w0 ≤ order w →
  HdRel (λ w w', order w ≤ order w') w0 ws →
  HdRel (λ w w', order w ≤ order w') w0 (insert_by_order w ws).
Proof.
  intros Hle Hhd. destruct ws as [|w' ws]; simpl.
  - by constructor.
  - destruct (Z.leb_spec (order w) (order w')); constructor; [done|].
    by inversion Hhd.
Qed.

Lemma insert_by_order_ascending (w : Waypoint) (ws : list Waypoint) :
  ascending ws → ascending (insert_by_order w ws).
Proof.
  unfold ascending. induction 1 as [|w' ws Hs IH Hhd]; simpl.
  - repeat constructor.
  - destruct (Z.leb_spec (order w) (order w')).
    + constructor; [by constructor|]. by constructor.
    + constructor; [done|]. apply insert_by_order_hd; [lia|done].
Qed.

Lemma order_by_order_ascending (ws : list Waypoint) :
  ascending (order_by_order ws).
Proof.
  induction ws as [|w ws IH]; simpl.
  - constructor.
  - by apply insert_by_order_ascending.
Qed.

(** The sort is stable: the rows of any one [order] come out in the order in
    which the table lists them. *)
Lemma insert_by_order_filter (o : Z) (w : Waypoint) (ws : list Waypoint) :
  filter (λ w', order w' = o) (insert_by_order w ws) =
  filter (λ w', order w' = o) (w :: ws).
Proof.
  induction ws as [|w' ws IH]; simpl; [done|].
  destruct (Z.leb_spec (order w) (order w')) as [Hle|Hlt]; [done|].
  rewrite filter_cons, IH, !filter_cons.
  destruct (decide (order w' = o)) as [Hw'|Hw'];
    destruct (decide (order w = o)) as [Hw|Hw]; try done.
  lia.
Qed.

Lemma order_by_order_stable (o : Z) (ws : list Waypoint) :
  filter (λ w, order w = o) (order_by_order ws) =
  filter (λ w, order w = o) ws.
Proof.
  induction ws as [|w ws IH]; simpl; [done|].
  by rewrite insert_by_order_filter, !filter_cons, IH.
Qed.

(** ** [satisfied_waypoints] *)

Section SatisfiedWaypointsFacts.
Context {Log Period Zone : Type} `{!Models Log Period Zone}.

(** The scan with its early exit is the any-match test. *)
Lemma scan_logs_existsb (dist_max : float) (w : Waypoint) (logs : list Log) :
  scan_logs dist_max w logs = existsb (within dist_max w) logs.
Proof.
  induction logs as [|l logs IH]; simpl; [done|].
  unfold within at 1. by destruct (PrimFloat.ltb _ _).
Qed.

Lemma scan_logs_true (dist_max : float) (w : Waypoint) (logs : list Log) :
  scan_logs dist_max w logs = true ↔
  ∃ l, l ∈ logs ∧ within dist_max w l = true.
Proof.
  rewrite scan_logs_existsb, existsb_exists.
  split; intros (l & Hl & Hw); exists l; by rewrite ?list_elem_of_In in *.
Qed.

Lemma waypoints_loop_app (dist_max : float) (ws : list Waypoint)
    (logs : list Log) (acc : list bool) :
  waypoints_loop dist_max ws logs acc =
  acc ++ ((λ w, scan_logs dist_max w logs) <$> ws).
Proof.
  revert acc. induction ws as [|w ws IH]; intros acc; simpl.
  - by rewrite app_nil_r.
  - by rewrite IH, <- app_assoc.
Qed.

(** One boolean per waypoint, in ascending order of [order]. *)
Lemma satisfied_waypoints_fmap (self : MissionConfig) (logs : list Log) :
  satisfied_waypoints self logs =
  (λ w, scan_logs (mission_waypoints_dist_max self) w logs)
    <$> order_by_order (mission_waypoints self).
Proof. unfold satisfied_waypoints. by rewrite waypoints_loop_app. Qed.

Lemma satisfied_waypoints_length (self : MissionConfig) (logs : list Log) :
  length (satisfied_waypoints self logs) = length (mission_waypoints self).
Proof.
  by rewrite satisfied_waypoints_fmap, length_fmap, order_by_order_length.
Qed.

Lemma satisfied_waypoints_lookup (self : MissionConfig) (logs : list Log)
    (i : nat) (w : Waypoint) :
  order_by_order (mission_waypoints self) !! i = Some w →
  satisfied_waypoints self logs !! i =
  Some (scan_logs (mission_waypoints_dist_max self) w logs).
Proof.
  intros Hw. by rewrite satisfied_waypoints_fmap, list_lookup_fmap, Hw.
Qed.

Lemma scan_logs_perm (dist_max : float) (w : Waypoint) (logs logs' : list Log) :
  logs ≡ₚ logs' → scan_logs dist_max w logs = scan_logs dist_max w logs'.
Proof.
  intros Hp. rewrite !scan_logs_existsb.
  induction Hp as [|l ? ? _ IH|l l' ?|? ? ? _ IH1 _ IH2]; simpl.
  - done.
  - by rewrite IH.
  - by destruct (within _ _ l), (within _ _ l').
  - by rewrite IH1.
Qed.

(** C1: the entry of [satisfied_waypoints] for a waypoint (at the
    waypoint's place in ascending order of [order]) is [True] exactly when
    some log is at a distance strictly below [mission_waypoints_dist_max];
    logs at a distance equal to the threshold do not satisfy the waypoint,
    and neither does an empty list of logs. *)
Theorem satisfied_waypoints_iff (self : MissionConfig) (logs : list Log)
    (i : nat) (w : Waypoint) :
  order_by_order (mission_waypoints self) !! i = Some w →
  ∃ satisfied,
    satisfied_waypoints self logs !! i = Some satisfied ∧
    (satisfied = true ↔
     ∃ l, l ∈ logs ∧
       PrimFloat.ltb (distance_to (uas_position l) (position w))
         (mission_waypoints_dist_max self) = true) ∧
    ((∀ l, l ∈ logs →
        PrimFloat.eqb (distance_to (uas_position l) (position w))
          (mission_waypoints_dist_max self) = true) →
     satisfied = false) ∧
    (logs = [] → satisfied = false).
Proof.
  intros Hw. eexists. split; [by apply satisfied_waypoints_lookup|].
  split; [apply scan_logs_true|]. split.
  - intros Heq. apply not_true_is_false. intros (l & Hl & Hlt)%scan_logs_true.
    unfold within in Hlt. by rewrite (float_eqb_not_ltb _ _ (Heq l Hl)) in Hlt.
  - by intros ->.
Qed.

(** C9: the result of [satisfied_waypoints] does not depend on the order
    of the telemetry logs. *)
Theorem satisfied_waypoints_perm (self : MissionConfig)
    (logs logs' : list Log) :
  logs ≡ₚ logs' →
  satisfied_waypoints self logs = satisfied_waypoints self logs'.
Proof.
  intros Hp. rewrite !satisfied_waypoints_fmap.
  apply list_fmap_ext. intros _ w _. by apply scan_logs_perm.
Qed.

End SatisfiedWaypointsFacts.

(** ** The loops of [evaluate_teams] *)

(** [enumerate]: the hit at index [j] is stored under the key [i + j + 1],
    and no other key is written. *)
Lemma enumerate_hits_lookup_out (i : Z) (hits : list bool)
    (keyed : gmap Z bool) (k : Z) :
  k ≤ i ∨ i + Z.of_nat (length hits) < k →
  enumerate_hits i hits keyed !! k = keyed !! k.
Proof.
  revert i keyed. induction hits as [|hit hits IH]; intros i keyed Hk; simpl.
  - done.
  - rewrite IH by (simpl in Hk; lia).
    apply lookup_insert_ne. simpl in Hk. lia.
Qed.

Lemma enumerate_hits_lookup (i : Z) (hits : list bool) (keyed : gmap Z bool)
    (j : nat) (hit : bool) :
  hits !! j = Some hit →
  enumerate_hits i hits keyed !! (i + Z.of_nat j + 1) = Some hit.
Proof.
  revert i keyed j. induction hits as [|h hits IH]; intros i keyed j Hj.
  - done.
  - cbn [enumerate_hits]. destruct j as [|j]; simpl in Hj.
    + injection Hj as ->. rewrite enumerate_hits_lookup_out by lia.
      replace (i + Z.of_nat 0 + 1) with (i + 1) by lia. apply lookup_insert_eq.
    + replace (i + Z.of_nat (S j) + 1) with ((i + 1) + Z.of_nat j + 1) by lia.
      by apply IH.
Qed.

Lemma enumerate_hits_keys (hits : list bool) (k : Z) :
  is_Some (enumerate_hits 0 hits ∅ !! k) → 1 ≤ k ≤ Z.of_nat (length hits).
Proof.
  intros Hk.
  destruct (decide (1 ≤ k ≤ Z.of_nat (length hits))) as [|Hout]; [done|].
  rewrite enumerate_hits_lookup_out, lookup_empty in Hk by lia.
  by destruct Hk.
Qed.

(** The collision loop writes one entry per obstacle, under its key. *)
Lemma collisions_loop_lookup_out {O Log : Type} `{!Obstacle O Log}
    (obstacles : list O) (logs : list Log) (acc : gmap Z bool) (k : Z) :
  k ∉ obst_pk <$> obstacles →
  collisions_loop obstacles logs acc !! k = acc !! k.
Proof.
  revert acc. induction obstacles as [|o os IH]; intros acc Hk; simpl.
  - done.
  - rewrite fmap_cons, not_elem_of_cons in Hk. destruct Hk as [Hne Hk].
    rewrite IH by done. by apply lookup_insert_ne.
Qed.

Lemma collisions_loop_lookup {O Log : Type} `{!Obstacle O Log}
    (obstacles : list O) (logs : list Log) (acc : gmap Z bool) (o : O) :
  NoDup (obst_pk <$> obstacles) → o ∈ obstacles →
  collisions_loop obstacles logs acc !! obst_pk o =
  Some (evaluate_collision_with_uas o logs).
Proof.
  revert acc. induction obstacles as [|o' os IH]; intros acc Hnd Ho; simpl.
  - by apply elem_of_nil in Ho.
  - rewrite fmap_cons in Hnd. apply NoDup_cons in Hnd as [Hfresh Hnd].
    apply elem_of_cons in Ho as [->|Ho].
    + rewrite collisions_loop_lookup_out by done. apply lookup_insert_eq.
    + by apply IH.
Qed.

Lemma collisions_loop_keys {O Log : Type} `{!Obstacle O Log}
    (obstacles : list O) (logs : list Log) (k : Z) :
  is_Some (collisions_loop obstacles logs ∅ !! k) → k ∈ obst_pk <$> obstacles.
Proof.
  intros Hk. destruct (decide (k ∈ obst_pk <$> obstacles)) as [|Hout]; [done|].
  rewrite collisions_loop_lookup_out, lookup_empty in Hk by done.
  by destruct Hk.
Qed.

(** Without assuming distinct keys: an entry is the starting one or the
    collision value of an obstacle with that key, and every obstacle's key
    has an entry. *)
Lemma collisions_loop_lookup_Some {O Log : Type} `{!Obstacle O Log}
    (obstacles : list O) (logs : list Log) (acc : gmap Z bool) (k : Z)
    (b : bool) :
  collisions_loop obstacles logs acc !! k = Some b →
  acc !! k = Some b ∨
  ∃ o, o ∈ obstacles ∧ obst_pk o = k ∧ evaluate_collision_with_uas o logs = b.
Proof.
  revert acc. induction obstacles as [|o os IH]; intros acc Hk; simpl in Hk.
  - by left.
  - apply IH in Hk as [Hk|(o' & Ho' & Hpk & Hb)].
    + apply lookup_insert_Some in Hk as [[<- <-]|[_ Hk]].
      * right. exists o. split; [by left|done].
      * by left.
    + right. exists o'. split; [by right|done].
Qed.

Lemma collisions_loop_lookup_is_Some {O Log : Type} `{!Obstacle O Log}
    (obstacles : list O) (logs : list Log) (acc : gmap Z bool) (k : Z) :
  is_Some (acc !! k) ∨ k ∈ obst_pk <$> obstacles →
  is_Some (collisions_loop obstacles logs acc !! k).
Proof.
  revert acc. induction obstacles as [|o os IH]; intros acc Hk; simpl.
  - destruct Hk as [Hk|Hk]; [done|]. by apply elem_of_nil in Hk.
  - apply IH. rewrite lookup_insert_is_Some.
    destruct Hk as [Hk|Hk].
    + left. destruct (decide (obst_pk o = k)); [by left|by right].
    + rewrite fmap_cons in Hk. apply elem_of_cons in Hk as [->|Hk].
      * left. by left.
      * by right.
Qed.

(** With no collision at all, every obstacle is recorded as not hit. *)
Lemma collisions_loop_all_false {O Log : Type} `{!Obstacle O Log}
    (obstacles : list O) (logs : list Log) (k : Z) :
  (∀ o, o ∈ obstacles → evaluate_collision_with_uas o logs = false) →
  collisions_loop obstacles logs ∅ !! k =
  if bool_decide (k ∈ obst_pk <$> obstacles) then Some false else None.
Proof.
  intros Hfalse. case_bool_decide as Hk.
  - destruct (collisions_loop_lookup_is_Some obstacles logs ∅ k) as [b Hb];
      [by right|].
    rewrite Hb. f_equal.
    apply collisions_loop_lookup_Some in Hb as [Hb|(o & Ho & _ & <-)].
    + by rewrite lookup_empty in Hb.
    + by apply Hfalse.
  - by rewrite collisions_loop_lookup_out, lookup_empty.
Qed.

(** The out-of-bounds loop is the left-to-right sum of the per-period
    values. *)
Lemma out_of_bounds_loop_foldl {Log Period Zone : Type}
    `{!Models Log Period Zone}
    (fly_zones : list Zone) (uas_period_logs : list (list Log)) (acc : float) :
  out_of_bounds_loop fly_zones uas_period_logs acc =
  foldl PrimFloat.add acc (FlyZone_out_of_bounds fly_zones <$> uas_period_logs).
Proof.
  revert acc. induction uas_period_logs as [|logs rest IH]; intros acc; simpl.
  - done.
  - by rewrite IH.
Qed.

(** ** [evaluate_teams] *)

(** The dictionary of one class of rates has the keys [max] and [avg], and
    no other. *)
Lemma max_avg_keys (times : Rates) (stat : string) :
  is_Some (max_avg times !! stat) ↔ stat = "max" ∨ stat = "avg".
Proof.
  unfold max_avg. rewrite !lookup_insert_is_Some, lookup_empty.
  split.
  - intros [<-|[_ [<-|[_ Hnone]]]]; [by right|by left|by destruct Hnone].
  - intros [->| ->]; [right; split; [done|]; by left|by left].
Qed.

Section EvaluateTeamsFacts.
Context {Log Period Zone SObst MObst : Type}.
Context `{!Models Log Period Zone}.
Context `{!Obstacle SObst Log} `{!Obstacle MObst Log}.
Implicit Types (self : MissionConfig) (db : Database Zone SObst MObst).
Implicit Types (users : list User) (results : gmap Z EvalData).

(** The loop over users leaves the keys of other users alone. *)
Lemma users_loop_lookup_out self (zones : list Zone) (sobsts : list SObst)
    (mobsts : list MObst) users results (k : Z) :
  k ∉ user_pk <$> users →
  users_loop self zones sobsts mobsts users results !! k = results !! k.
Proof.
  revert results. induction users as [|u users IH]; intros results Hk; simpl.
  - done.
  - rewrite fmap_cons, not_elem_of_cons in Hk. destruct Hk as [Hne Hk].
    destruct (is_superuser u); rewrite IH by done; [done|].
    by apply lookup_insert_ne.
Qed.

(** With distinct keys, the entry of a listed user is decided by the one
    iteration for that user. *)
Lemma users_loop_lookup self (zones : list Zone) (sobsts : list SObst)
    (mobsts : list MObst) users results (u : User) :
  NoDup (user_pk <$> users) → u ∈ users →
  users_loop self zones sobsts mobsts users results !! user_pk u =
  if is_superuser u then results !! user_pk u
  else Some (evaluate_user self zones sobsts mobsts u
               (default empty_eval_data (results !! user_pk u))).
Proof.
  revert results. induction users as [|u' users IH]; intros results Hnd Hu.
  - by apply elem_of_nil in Hu.
  - rewrite fmap_cons in Hnd. apply NoDup_cons in Hnd as [Hfresh Hnd].
    apply elem_of_cons in Hu as [->|Hu]; simpl.
    + destruct (is_superuser u'); rewrite users_loop_lookup_out by done;
        [done|]. apply lookup_insert_eq.
    + assert (user_pk u' ≠ user_pk u) as Hne.
      { intros Heq. apply Hfresh. rewrite Heq. by apply list_elem_of_fmap_2. }
      destruct (is_superuser u'); rewrite IH by done; [done|].
      by rewrite lookup_insert_ne.
Qed.

(** A competitor always gets a full record. *)
Lemma evaluate_teams_lookup self db (u : User) :
  NoDup (user_pk <$> User_objects_all db) → u ∈ User_objects_all db →
  is_superuser u = false →
  evaluate_teams self db !! user_pk u =
  Some (evaluate_user self (FlyZone_objects_all db)
          (StationaryObstacle_objects_all db) (MovingObstacle_objects_all db)
          u empty_eval_data).
Proof.
  intros Hnd Hu Hsu. unfold evaluate_teams.
  by rewrite users_loop_lookup, Hsu, lookup_empty.
Qed.

(** Every key of the result is the key of a listed user who is not an
    administrator. *)
Lemma users_loop_lookup_Some self (zones : list Zone) (sobsts : list SObst)
    (mobsts : list MObst) users results (k : Z) :
  is_Some (users_loop self zones sobsts mobsts users results !! k) →
  is_Some (results !! k) ∨
  ∃ u, u ∈ users ∧ user_pk u = k ∧ is_superuser u = false.
Proof.
  revert results. induction users as [|u users IH]; intros results Hk;
    simpl in Hk.
  - by left.
  - destruct (is_superuser u) eqn:Hsu.
    + apply IH in Hk as [Hk|(u' & Hu' & Hpk & Hsu')]; [by left|].
      right. exists u'. split; [by right|done].
    + apply IH in Hk as [Hk|(u' & Hu' & Hpk & Hsu')].
      * apply lookup_insert_is_Some in Hk as [<-|[_ Hk]]; [|by left].
        right. exists u. split; [by left|done].
      * right. exists u'. split; [by right|done].
Qed.

(** C3: an administrator listed among the users is not a key of the
    mapping [evaluate_teams] returns. *)
Theorem evaluate_teams_no_admin self db (u : User) :
  NoDup (user_pk <$> User_objects_all db) → u ∈ User_objects_all db →
  is_superuser u = true →
  evaluate_teams self db !! user_pk u = None.
Proof.
  intros Hnd Hu Hsu. unfold evaluate_teams.
  by rewrite users_loop_lookup, Hsu, lookup_empty.
Qed.

(** C2 (amended): the key of a waypoint in [waypoints_satisfied] is its
    place, counted from 1, in the ascending order of [order]; it maps to the
    waypoint's satisfaction boolean, and there is no other key.  The key is
    the waypoint's [order] when the orders of the mission are 1, 2, ..., n. *)
Theorem evaluate_teams_waypoints_keyed self db (u : User) :
  NoDup (user_pk <$> User_objects_all db) → u ∈ User_objects_all db →
  is_superuser u = false →
  ∃ eval_data keyed,
    evaluate_teams self db !! user_pk u = Some eval_data ∧
    waypoints_satisfied eval_data = Some keyed ∧
    (∀ (i : nat) (w : Waypoint),
       order_by_order (mission_waypoints self) !! i = Some w →
       keyed !! (Z.of_nat i + 1) =
       Some (scan_logs (mission_waypoints_dist_max self) w (uas_logs_of u))) ∧
    (∀ k, is_Some (keyed !! k) →
       1 ≤ k ≤ Z.of_nat (length (mission_waypoints self))) ∧
    (order <$> order_by_order (mission_waypoints self) =
       seqZ 1 (Z.of_nat (length (mission_waypoints self))) →
     ∀ w, w ∈ mission_waypoints self →
       keyed !! order w =
       Some (scan_logs (mission_waypoints_dist_max self) w (uas_logs_of u))).
Proof.
  intros Hnd Hu Hsu. eexists _, _.
  split; [by apply evaluate_teams_lookup|]. split; [done|].
  assert (∀ (i : nat) (w : Waypoint),
    order_by_order (mission_waypoints self) !! i = Some w →
    enumerate_hits 0 (satisfied_waypoints self (uas_logs_of u)) ∅
      !! (Z.of_nat i + 1) =
    Some (scan_logs (mission_waypoints_dist_max self) w (uas_logs_of u)))
    as Hkeyed.
  { intros i w Hw.
    rewrite <- (enumerate_hits_lookup 0 _ ∅ i _
      (satisfied_waypoints_lookup self (uas_logs_of u) i w Hw)).
    f_equal. }
  split; [exact Hkeyed|]. split.
  - intros k Hk%enumerate_hits_keys.
    by rewrite satisfied_waypoints_length in Hk.
  - intros Horders w Hw.
    rewrite <- order_by_order_perm in Hw.
    apply list_elem_of_lookup in Hw as [i Hi].
    assert ((order <$> order_by_order (mission_waypoints self)) !! i =
      Some (order w)) as Ho by (by rewrite list_lookup_fmap, Hi).
    rewrite Horders in Ho. apply lookup_seqZ in Ho as [-> _].
    rewrite Z.add_comm. by apply Hkeyed.
Qed.

(** C4: a competitor without flights and without telemetry is a key of the
    result, with a full record of default values: every waypoint key maps to
    [False], the out-of-bounds time is zero, each of the three classes of
    rates has [max] and [avg] (and nothing else), both [None], and every
    obstacle key maps to [False].  The imported models are taken to answer
    as documented when there is nothing to evaluate. *)
Theorem evaluate_teams_no_flights self db (u : User) :
  NoDup (user_pk <$> User_objects_all db) → u ∈ User_objects_all db →
  is_superuser u = false →
  TakeoffOrLandingEvent_flights u = [] →
  UasTelemetry_by_time_period u [] = [] →
  UasTelemetry_dedupe [] = [] →
  ServerInfoAccessLog_rates u [] = (None, None) →
  ObstacleAccessLog_rates u [] = (None, None) →
  UasTelemetry_rates u [] [] = (None, None) →
  (∀ o : SObst, o ∈ StationaryObstacle_objects_all db →
     evaluate_collision_with_uas o ([] : list Log) = false) →
  (∀ o : MObst, o ∈ MovingObstacle_objects_all db →
     evaluate_collision_with_uas o ([] : list Log) = false) →
  ∃ eval_data keyed times stationary moving,
    evaluate_teams self db !! user_pk u = Some eval_data ∧
    waypoints_satisfied eval_data = Some keyed ∧
    (∀ k, keyed !! k =
       if bool_decide (1 ≤ k ≤ Z.of_nat (length (mission_waypoints self)))
       then Some false else None) ∧
    out_of_bounds_time eval_data = Some 0%float ∧
    interop_times eval_data = Some times ∧
    (∀ class,
       class = "server_info" ∨ class = "obst_info" ∨ class = "uas_telem" →
       ∃ entry,
         times !! class = Some entry ∧
         entry !! "max" = Some None ∧
         entry !! "avg" = Some None ∧
         ∀ stat, is_Some (entry !! stat) → stat = "max" ∨ stat = "avg") ∧
    (∀ class, is_Some (times !! class) →
       class = "server_info" ∨ class = "obst_info" ∨ class = "uas_telem") ∧
    stationary_obst_collision eval_data = Some stationary ∧
    (∀ k, stationary !! k =
       if bool_decide (k ∈ obst_pk <$> StationaryObstacle_objects_all db)
       then Some false else None) ∧
    moving_obst_collision eval_data = Some moving ∧
    (∀ k, moving !! k =
       if bool_decide (k ∈ obst_pk <$> MovingObstacle_objects_all db)
       then Some false else None).
Proof.
  intros Hnd Hu Hsu Hflights Hperiod Hdedupe Hserver Hobst Htelem Hstat Hmov.
  eexists _, _, _, _, _.
  split; [by apply evaluate_teams_lookup|].
  unfold evaluate_user. cbn [waypoints_satisfied out_of_bounds_time
    interop_times stationary_obst_collision moving_obst_collision
    empty_eval_data default].
  rewrite Hflights, Hperiod, Hdedupe, Hserver, Hobst, Htelem.
  cbn [concat out_of_bounds_loop].
  split; [done|].
  split; [|split; [done|]; split; [done|]; split; [|split; [|split; [done|]]]].
  - intros k. case_bool_decide as Hk.
    + replace k with (0 + Z.of_nat (Z.to_nat (k - 1)) + 1) at 1 by lia.
      apply enumerate_hits_lookup.
      rewrite satisfied_waypoints_fmap, list_lookup_fmap.
      destruct (lookup_lt_is_Some_2 (order_by_order (mission_waypoints self))
        (Z.to_nat (k - 1))) as [w ->]; [|done].
      rewrite order_by_order_length. lia.
    + rewrite enumerate_hits_lookup_out, lookup_empty; [done|].
      rewrite satisfied_waypoints_length. lia.
  - intros class Hclass. exists (max_avg (None, None)).
    split; [destruct Hclass as [-> | [-> | ->]]; by simplify_map_eq|].
    split; [done|]. split; [done|]. intros stat. apply max_avg_keys.
  - intros class. rewrite !lookup_insert_is_Some, lookup_empty.
    intros [<-|[_ [<-|[_ [<-|[_ Hnone]]]]]]; auto. by destruct Hnone.
  - split; [by intros k; apply collisions_loop_all_false|].
    split; [done|]. by intros k; apply collisions_loop_all_false.
Qed.

(** C5: the out-of-bounds time of a competitor is the sum, period by
    period from zero, of [FlyZone.out_of_bounds] applied to the logs of that
    period alone. *)
Theorem evaluate_teams_out_of_bounds_sum self db (u : User) :
  NoDup (user_pk <$> User_objects_all db) → u ∈ User_objects_all db →
  is_superuser u = false →
  ∃ eval_data,
    evaluate_teams self db !! user_pk u = Some eval_data ∧
    out_of_bounds_time eval_data =
    Some (foldl PrimFloat.add 0%float
            (FlyZone_out_of_bounds (FlyZone_objects_all db)
               <$> uas_period_logs_of u)).
Proof.
  intros Hnd Hu Hsu. eexists. split; [by apply evaluate_teams_lookup|].
  simpl. by rewrite out_of_bounds_loop_foldl.
Qed.

(** C6: the collision maps of a competitor have one entry per obstacle,
    under the obstacle's key, holding that obstacle's
    [evaluate_collision_with_uas] on the competitor's deduped logs of all
    flight periods chained together; they have no other key. *)
Theorem evaluate_teams_collisions self db (u : User) :
  unique_pks db → u ∈ User_objects_all db → is_superuser u = false →
  ∃ eval_data stationary moving,
    evaluate_teams self db !! user_pk u = Some eval_data ∧
    stationary_obst_collision eval_data = Some stationary ∧
    moving_obst_collision eval_data = Some moving ∧
    (∀ o : SObst, o ∈ StationaryObstacle_objects_all db →
       stationary !! obst_pk o =
       Some (evaluate_collision_with_uas o (uas_logs_of u))) ∧
    (∀ o : MObst, o ∈ MovingObstacle_objects_all db →
       moving !! obst_pk o =
       Some (evaluate_collision_with_uas o (uas_logs_of u))) ∧
    (∀ k, is_Some (stationary !! k) →
       k ∈ obst_pk <$> StationaryObstacle_objects_all db) ∧
    (∀ k, is_Some (moving !! k) →
       k ∈ obst_pk <$> MovingObstacle_objects_all db).
Proof.
  intros (Hnd & Hstat & Hmov) Hu Hsu. eexists _, _, _.
  split; [by apply evaluate_teams_lookup|].
  split; [done|]. split; [done|]. simpl. repeat split.
  - intros o Ho. by apply collisions_loop_lookup.
  - intros o Ho. by apply collisions_loop_lookup.
  - apply collisions_loop_keys.
  - apply collisions_loop_keys.
Qed.

(** C7: the [uas_telem] rates of a competitor are [UasTelemetry.rates]
    called with the deduped per-period logs the other evaluators use; the
    [server_info] and [obst_info] rates are the [rates] of their access
    logs; each entry stores the first component of the result under [max]
    and the second under [avg]. *)
Theorem evaluate_teams_interop_times self db (u : User) :
  NoDup (user_pk <$> User_objects_all db) → u ∈ User_objects_all db →
  is_superuser u = false →
  let flight_periods := TakeoffOrLandingEvent_flights u in
  let uas_telemetry_times :=
    UasTelemetry_rates u flight_periods (uas_period_logs_of u) in
  let server_info_times := ServerInfoAccessLog_rates u flight_periods in
  let obstacle_times := ObstacleAccessLog_rates u flight_periods in
  ∃ eval_data times,
    evaluate_teams self db !! user_pk u = Some eval_data ∧
    interop_times eval_data = Some times ∧
    times !! "uas_telem" ≫= (.!! "max") = Some uas_telemetry_times.1 ∧
    times !! "uas_telem" ≫= (.!! "avg") = Some uas_telemetry_times.2 ∧
    times !! "server_info" ≫= (.!! "max") = Some server_info_times.1 ∧
    times !! "server_info" ≫= (.!! "avg") = Some server_info_times.2 ∧
    times !! "obst_info" ≫= (.!! "max") = Some obstacle_times.1 ∧
    times !! "obst_info" ≫= (.!! "avg") = Some obstacle_times.2.
Proof.
  intros Hnd Hu Hsu. cbv zeta. eexists _, _.
  split; [by apply evaluate_teams_lookup|]. split; [done|].
  unfold max_avg. by simplify_map_eq.
Qed.

(** C8: the result does not depend on the order in which the users are
    visited. *)
Theorem evaluate_teams_users_perm self db users :
  NoDup (user_pk <$> User_objects_all db) →
  User_objects_all db ≡ₚ users →
  evaluate_teams self db =
  evaluate_teams self
    {| User_objects_all := users;
       FlyZone_objects_all := FlyZone_objects_all db;
       StationaryObstacle_objects_all := StationaryObstacle_objects_all db;
       MovingObstacle_objects_all := MovingObstacle_objects_all db |}.
Proof.
  intros Hnd Hp. apply map_eq. intros k. unfold evaluate_teams. simpl.
  assert (NoDup (user_pk <$> users)) as Hnd' by (by rewrite <- Hp).
  destruct (decide (k ∈ user_pk <$> User_objects_all db)) as [Hk|Hk].
  - apply list_elem_of_fmap in Hk as (u & -> & Hu).
    rewrite !users_loop_lookup; [done|done| |done|done].
    by rewrite <- Hp.
  - rewrite !users_loop_lookup_out; [done| |done]. by rewrite <- Hp.
Qed.

End EvaluateTeamsFacts.

(** ** [kml] *)

Section KmlFacts.
Context `{!Describe}.

Lemma kml_search_area_loop_coords (points : list Waypoint)
    (search_area : list Coord) (markers : list Feature) (num : Z) :
  (kml_search_area_loop points search_area markers num).1 =
  search_area ++ (coord_of <$> points).
Proof.
  revert search_area markers num.
  induction points as [|p points IH]; intros search_area markers num; simpl.
  - by rewrite app_nil_r.
  - by rewrite IH, <- app_assoc.
Qed.

(** With at least one search grid point the export returns. *)
Lemma kml_returns (self : MissionConfig) (container : list Feature)
    (p : Waypoint) (ps : list Waypoint) :
  search_grid_points self = p :: ps →
  (kml self container).2 = Returned tt.
Proof.
  intros Hgrid. unfold kml.
  destruct (kml_waypoints_loop _ _ _ _) as [waypoints waypoint_markers].
  pose proof (kml_search_area_loop_coords (search_grid_points self) [] [] 1)
    as Hcoords.
  destruct (kml_search_area_loop _ _ _ _) as [search_area boundary_markers].
  simpl in Hcoords. rewrite Hcoords, Hgrid. done.
Qed.

(** C10: the export of a mission without search grid points raises
    [IndexError] (from [search_area[0]] on the empty list) instead of
    returning. *)
Theorem kml_empty_search_grid (self : MissionConfig)
    (container : list Feature) :
  search_grid_points self = [] →
  (kml self container).2 = Raised IndexError.
Proof.
  intros Hgrid. unfold kml.
  destruct (kml_waypoints_loop _ _ _ _) as [waypoints waypoint_markers].
  by rewrite Hgrid.
Qed.

End KmlFacts.

(** ** More on [satisfied_waypoints] *)

Section SatisfiedWaypointsMore.
Context {Log Period Zone : Type} `{!Models Log Period Zone}.

Lemma scan_logs_app (dist_max : float) (w : Waypoint) (logs logs' : list Log) :
  scan_logs dist_max w (logs ++ logs') =
  scan_logs dist_max w logs || scan_logs dist_max w logs'.
Proof. by rewrite !scan_logs_existsb, existsb_app. Qed.

Lemma scan_logs_concat (dist_max : float) (w : Waypoint)
    (period_logs : list (list Log)) :
  scan_logs dist_max w (concat period_logs) = true ↔
  ∃ logs, logs ∈ period_logs ∧ scan_logs dist_max w logs = true.
Proof.
  induction period_logs as [|logs rest IH]; simpl.
  - split; [done|]. intros (logs & Hin & _). by apply elem_of_nil in Hin.
  - rewrite scan_logs_app, orb_true_iff, IH. split.
    + intros [Hhere|(logs' & Hin & Hthere)].
      * exists logs. split; [by left|done].
      * exists logs'. split; [by right|done].
    + intros (logs' & Hin & Hthere).
      apply elem_of_cons in Hin as [->|Hin]; [by left|].
      right. by exists logs'.
Qed.

Lemma zip_with_orb_fmap {A : Type} (f g : A → bool) (l : list A) :
  zip_with orb (f <$> l) (g <$> l) = (λ x, f x || g x) <$> l.
Proof. induction l as [|x l IH]; csimpl; [done|]. by rewrite IH. Qed.

(** The result depends only on which logs occur in the list: neither their
    order nor their multiplicity matters, so dropping repeated logs leaves
    it unchanged. *)
Theorem satisfied_waypoints_same_elements (self : MissionConfig)
    (logs logs' : list Log) :
  (∀ l, l ∈ logs ↔ l ∈ logs') →
  satisfied_waypoints self logs = satisfied_waypoints self logs'.
Proof.
  intros Hsame. rewrite !satisfied_waypoints_fmap.
  apply list_fmap_ext. intros _ w _.
  apply eq_true_iff_eq. rewrite !scan_logs_true.
  split; intros (l & Hl & Hw); exists l; (split; [by apply Hsame|done]).
Qed.

(** Evaluating two lists of logs chained together gives, waypoint by
    waypoint, the disjunction of the two evaluations: more telemetry never
    turns a satisfied waypoint into an unsatisfied one. *)
Theorem satisfied_waypoints_app (self : MissionConfig)
    (logs logs' : list Log) :
  satisfied_waypoints self (logs ++ logs') =
  zip_with orb (satisfied_waypoints self logs)
    (satisfied_waypoints self logs').
Proof.
  rewrite !satisfied_waypoints_fmap, zip_with_orb_fmap.
  apply list_fmap_ext. intros _ w _. apply scan_logs_app.
Qed.

End SatisfiedWaypointsMore.

(** ** More on [evaluate_teams] *)

Section EvaluateTeamsMore.
Context {Log Period Zone SObst MObst : Type}.
Context `{!Models Log Period Zone}.
Context `{!Obstacle SObst Log} `{!Obstacle MObst Log}.
Implicit Types (self : MissionConfig) (db : Database Zone SObst MObst).
Implicit Types (users : list User) (results : gmap Z EvalData).

Lemma users_loop_lookup_is_Some self (zones : list Zone)
    (sobsts : list SObst) (mobsts : list MObst) users results (k : Z) :
  is_Some (results !! k) ∨
  (∃ u, u ∈ users ∧ user_pk u = k ∧ is_superuser u = false) →
  is_Some (users_loop self zones sobsts mobsts users results !! k).
Proof.
  revert results. induction users as [|u users IH]; intros results Hk; simpl.
  - destruct Hk as [Hk|(u & Hu & _)]; [done|]. by apply elem_of_nil in Hu.
  - destruct (is_superuser u) eqn:Hsu; apply IH.
    + destruct Hk as [Hk|(u' & Hu' & Hpk & Hsu')]; [by left|].
      apply elem_of_cons in Hu' as [->|Hu']; [congruence|].
      right. by exists u'.
    + rewrite lookup_insert_is_Some.
      destruct Hk as [Hk|(u' & Hu' & Hpk & Hsu')].
      * left. destruct (decide (user_pk u = k)); [by left|by right].
      * apply elem_of_cons in Hu' as [->|Hu']; [left; by left|].
        right. by exists u'.
Qed.

(** The keys of the result are exactly the keys of the users who are not
    administrators. *)
Theorem evaluate_teams_keys self db (k : Z) :
  is_Some (evaluate_teams self db !! k) ↔
  ∃ u, u ∈ User_objects_all db ∧ user_pk u = k ∧ is_superuser u = false.
Proof.
  unfold evaluate_teams. split.
  - intros [Hk|Hk]%users_loop_lookup_Some; [|done].
    rewrite lookup_empty in Hk. by destruct Hk.
  - intros Hk. apply users_loop_lookup_is_Some. by right.
Qed.

Lemma users_loop_filter self (zones : list Zone) (sobsts : list SObst)
    (mobsts : list MObst) users results :
  users_loop self zones sobsts mobsts users results =
  users_loop self zones sobsts mobsts
    (filter (λ u, is_superuser u = false) users) results.
Proof.
  revert results. induction users as [|u users IH]; intros results.
  - done.
  - rewrite filter_cons. simpl. destruct (is_superuser u) eqn:Hsu.
    + rewrite decide_False by done. apply IH.
    + rewrite decide_True by done. simpl. rewrite Hsu. apply IH.
Qed.

(** Administrators have no influence on the result: evaluating all users
    gives the same mapping as evaluating the users left once the
    administrators are removed. *)
Theorem evaluate_teams_ignores_admins self db :
  evaluate_teams self db =
  evaluate_teams self
    {| User_objects_all :=
         filter (λ u, is_superuser u = false) (User_objects_all db);
       FlyZone_objects_all := FlyZone_objects_all db;
       StationaryObstacle_objects_all := StationaryObstacle_objects_all db;
       MovingObstacle_objects_all := MovingObstacle_objects_all db |}.
Proof. unfold evaluate_teams. simpl. apply users_loop_filter. Qed.

Lemma evaluate_user_full self (zones : list Zone) (sobsts : list SObst)
    (mobsts : list MObst) (u : User) (eval_data : EvalData) :
  eval_data = empty_eval_data ∨ full_record eval_data →
  full_record (evaluate_user self zones sobsts mobsts u eval_data).
Proof.
  intros Hdata.
  assert (∃ times0, default ∅ (interop_times eval_data) = times0 ∧
    (∀ class, is_Some (times0 !! class) →
       class = "server_info" ∨ class = "obst_info" ∨ class = "uas_telem") ∧
    (∀ class entry, times0 !! class = Some entry →
       ∀ stat, is_Some (entry !! stat) ↔ stat = "max" ∨ stat = "avg"))
    as (times0 & Htimes0 & Hclasses & Hstats).
  { destruct Hdata as [->|(_ & _ & (times & -> & Hc & Hs) & _)].
    - exists ∅. split; [done|].
      split; [intros class Hnone|intros class entry Hnone];
        rewrite lookup_empty in Hnone; [by destruct Hnone|done].
    - exists times. split; [done|]. split; [|done].
      intros class. apply Hc. }
  unfold full_record, evaluate_user. simpl. rewrite Htimes0.
  split; [done|]. split; [done|]. split; [|done].
  eexists. split; [done|]. split.
  - intros class. rewrite !lookup_insert_is_Some. split.
    + intros [<-|[_ [<-|[_ [<-|[_ Hin]]]]]]; auto.
    + intros [->|[->| ->]].
      * right. split; [done|]. right. split; [done|]. by left.
      * right. split; [done|]. by left.
      * by left.
  - intros class entry Hentry.
    apply lookup_insert_Some in Hentry as [[_ <-]|[_ Hentry]];
      [apply max_avg_keys|].
    apply lookup_insert_Some in Hentry as [[_ <-]|[_ Hentry]];
      [apply max_avg_keys|].
    apply lookup_insert_Some in Hentry as [[_ <-]|[_ Hentry]];
      [apply max_avg_keys|].
    by apply (Hstats class).
Qed.

Lemma users_loop_full self (zones : list Zone) (sobsts : list SObst)
    (mobsts : list MObst) users results :
  (∀ k d, results !! k = Some d → full_record d) →
  ∀ k d, users_loop self zones sobsts mobsts users results !! k = Some d →
    full_record d.
Proof.
  revert results. induction users as [|u users IH]; intros results Hfull;
    simpl.
  - done.
  - destruct (is_superuser u); apply IH; [done|].
    intros k d [[_ <-]|[_ Hd]]%lookup_insert_Some; [|by apply (Hfull k)].
    apply evaluate_user_full.
    destruct (results !! user_pk u) as [d0|] eqn:Hd0; simpl.
    + right. by apply (Hfull (user_pk u)).
    + by left.
Qed.

(** Every record of the result is full: it has the five keys, its interop
    times have exactly the three classes, and each class has exactly the
    entries [max] and [avg]. *)
Theorem evaluate_teams_full_records self db (k : Z) (eval_data : EvalData) :
  evaluate_teams self db !! k = Some eval_data → full_record eval_data.
Proof.
  unfold evaluate_teams. apply users_loop_full.
  intros k' d Hnone. by rewrite lookup_empty in Hnone.
Qed.

(** The record of a user does not depend on the other users: it is the
    record obtained by evaluating that user alone. *)
Theorem evaluate_teams_independent self db (u : User) :
  NoDup (user_pk <$> User_objects_all db) → u ∈ User_objects_all db →
  evaluate_teams self db !! user_pk u =
  evaluate_teams self
    {| User_objects_all := [u];
       FlyZone_objects_all := FlyZone_objects_all db;
       StationaryObstacle_objects_all := StationaryObstacle_objects_all db;
       MovingObstacle_objects_all := MovingObstacle_objects_all db |}
    !! user_pk u.
Proof.
  intros Hnd Hu. unfold evaluate_teams. simpl (User_objects_all _).
  rewrite users_loop_lookup by done. simpl.
  destruct (is_superuser u); [done|]. by rewrite lookup_insert_eq.
Qed.

(** A waypoint is recorded as satisfied exactly when, during at least one
    flight period, some deduped log came strictly closer than the
    threshold: the flight periods are chained and evaluated together. *)
Theorem evaluate_teams_hit_in_some_period self db (u : User) (i : nat)
    (w : Waypoint) :
  NoDup (user_pk <$> User_objects_all db) → u ∈ User_objects_all db →
  is_superuser u = false →
  order_by_order (mission_waypoints self) !! i = Some w →
  ∃ eval_data keyed,
    evaluate_teams self db !! user_pk u = Some eval_data ∧
    waypoints_satisfied eval_data = Some keyed ∧
    (keyed !! (Z.of_nat i + 1) = Some true ↔
     ∃ logs l, logs ∈ uas_period_logs_of u ∧ l ∈ logs ∧
       PrimFloat.ltb (distance_to (uas_position l) (position w))
         (mission_waypoints_dist_max self) = true).
Proof.
  intros Hnd Hu Hsu Hw. eexists _, _.
  split; [by apply evaluate_teams_lookup|]. split; [done|].
  replace (Z.of_nat i + 1) with (0 + Z.of_nat i + 1) by lia.
  rewrite (enumerate_hits_lookup 0 _ ∅ i _
    (satisfied_waypoints_lookup self _ i w Hw)).
  split.
  - intros [= (logs & Hlogs & (l & Hl & Hnear)%scan_logs_true)%scan_logs_concat].
    by exists logs, l.
  - intros (logs & l & Hlogs & Hl & Hnear). f_equal.
    apply scan_logs_concat. exists logs. split; [done|].
    apply scan_logs_true. by exists l.
Qed.

(** Empty tables give empty maps, not missing keys: without mission
    waypoints [waypoints_satisfied] is the empty map, and without obstacles
    of a kind the collision map of that kind is empty. *)
Theorem evaluate_teams_empty_tables self db (u : User) :
  NoDup (user_pk <$> User_objects_all db) → u ∈ User_objects_all db →
  is_superuser u = false →
  ∃ eval_data,
    evaluate_teams self db !! user_pk u = Some eval_data ∧
    (mission_waypoints self = [] → waypoints_satisfied eval_data = Some ∅) ∧
    (StationaryObstacle_objects_all db = [] →
     stationary_obst_collision eval_data = Some ∅) ∧
    (MovingObstacle_objects_all db = [] →
     moving_obst_collision eval_data = Some ∅).
Proof.
  intros Hnd Hu Hsu. eexists. split; [by apply evaluate_teams_lookup|].
  unfold evaluate_user. simpl. split; [|split].
  - intros Hnone. unfold satisfied_waypoints. by rewrite Hnone.
  - by intros ->.
  - by intros ->.
Qed.

End EvaluateTeamsMore.

(** ** More on [kml] and [kml_all] *)

Section KmlMore.
Context `{!Describe}.

Lemma kml_waypoints_loop_spec (points : list Waypoint)
    (waypoints : list Coord) (markers : list Feature) (num : Z) :
  kml_waypoints_loop points waypoints markers num =
  (waypoints ++ (coord_of <$> points),
   markers ++
   imap (λ i w, Point (pretty (num + Z.of_nat i)) [coord_of w]
                  (str_Waypoint w) (Some absolute) (Some 1) (Some false))
     points).
Proof.
  revert waypoints markers num.
  induction points as [|p points IH]; intros waypoints markers num.
  - simpl. by rewrite !app_nil_r.
  - cbn [kml_waypoints_loop]. rewrite IH, fmap_cons, imap_cons.
    rewrite <- !app_assoc. simpl. rewrite Z.add_0_r.
    do 3 f_equal. apply imap_ext. intros i w _. simpl. do 2 f_equal. lia.
Qed.

Lemma kml_search_area_loop_spec (points : list Waypoint)
    (search_area : list Coord) (markers : list Feature) (num : Z) :
  kml_search_area_loop points search_area markers num =
  (search_area ++ (coord_of <$> points),
   markers ++
   imap (λ i w, Point (pretty (num + Z.of_nat i)) [coord_of w]
                  (str_Waypoint w) None None (Some false))
     points).
Proof.
  revert search_area markers num.
  induction points as [|p points IH]; intros search_area markers num.
  - simpl. by rewrite !app_nil_r.
  - cbn [kml_search_area_loop]. rewrite IH, fmap_cons, imap_cons.
    rewrite <- !app_assoc. simpl. rewrite Z.add_0_r.
    do 3 f_equal. apply imap_ext. intros i w _. simpl. do 2 f_equal. lia.
Qed.

(** Markers created by a loop starting at [num] are named [num], [num + 1],
    and so on. *)
Lemma marker_names {A : Type} (mk : string → A → Feature) (num : Z)
    (points : list A) :
  (∀ name x, feature_name (mk name x) = name) →
  feature_name <$> imap (λ i x, mk (pretty (num + Z.of_nat i)) x) points =
  pretty <$> seqZ num (Z.of_nat (length points)).
Proof.
  intros Hname. revert num.
  induction points as [|x points IH]; intros num.
  - done.
  - rewrite imap_cons, fmap_cons, Hname, Z.add_0_r.
    cbn [length]. rewrite Nat2Z.inj_succ, seqZ_cons by lia.
    rewrite fmap_cons. f_equal.
    replace (Z.pred (Z.succ (Z.of_nat (length points))))
      with (Z.of_nat (length points)) by lia.
    rewrite <- IH. f_equal. apply imap_ext. intros i y _. simpl.
    do 2 f_equal. lia.
Qed.

(** Reading rows of a list by index: the entry of [imap]. *)
Lemma kml_marker_lookup {A : Type} (mk : nat → A → Feature)
    (points : list A) (i : nat) (x : A) :
  points !! i = Some x → imap mk points !! i = Some (mk i x).
Proof. intros Hx. by rewrite list_lookup_imap, Hx. Qed.

(** The export adds exactly one folder to the container, named after the
    mission, and keeps what the container held; this is so when the call
    returns and when it raises.  The folder holds the seven static points
    (in the order the dictionary of locations is iterated), each a point
    named after the location, at the longitude and latitude of the
    mission's position of that name and described by [str] of it, followed
    by the two sub-folders. *)
Theorem kml_appends_one_folder (self : MissionConfig)
    (container : list Feature) :
  let point name pos :=
    Point name [(longitude pos, latitude pos, None)] (str_GpsPosition pos)
      None None None in
  ∃ static_points waypoints_folder search_area_folder,
    (kml self container).1 =
    container ++
      [Folder ("Mission " +:+ pretty (pk self))
         (static_points ++ [waypoints_folder; search_area_folder])] ∧
    static_points ≡ₚ
      [point "Home Position" (home_pos self);
       point "Emergent LKP" (emergent_last_known_pos self);
       point "Off Axis" (off_axis_target_pos self);
       point "SRIC" (sric_pos self);
       point "IR Primary" (ir_primary_target_pos self);
       point "IR Secondary" (ir_secondary_target_pos self);
       point "Air Drop" (air_drop_pos self)] ∧
    feature_name waypoints_folder = "Waypoints" ∧
    feature_name search_area_folder = "Search Area".
Proof.
  intros point. unfold kml.
  destruct (kml_waypoints_loop _ _ _ _) as [waypoints waypoint_markers].
  destruct (kml_search_area_loop _ _ _ _) as [search_area boundary_markers].
  destruct (getitem search_area 0);
    by exists (static_point <$> locations self); eexists _, _.
Qed.

(** The waypoint path is exported in the order in which the mission lists
    its waypoints: a line string whose coordinates are the (longitude,
    latitude, altitude) of each waypoint, followed by one marker per
    waypoint, the marker of the waypoint at index i being named i + 1, at
    the waypoint's coordinates, described by [str] of the waypoint, with
    absolute altitude, extruded and hidden.  This part of the document is
    complete even when the export of the search area raises. *)
Theorem kml_waypoints_folder (self : MissionConfig)
    (container : list Feature) :
  let coord (w : Waypoint) : Coord :=
    (longitude (gps_position (position w)),
     latitude (gps_position (position w)),
     Some (altitude_msl (position w))) in
  ∃ static_points markers search_area_folder,
    (kml self container).1 =
    container ++
      [Folder ("Mission " +:+ pretty (pk self))
         (static_points ++
          [Folder "Waypoints"
             (LineString "Waypoints" (coord <$> mission_waypoints self)
                (Some absolute) (Some 1) (Some black)
                (Some (changealphaint 100 green))
              :: markers);
           search_area_folder])] ∧
    length markers = length (mission_waypoints self) ∧
    (∀ (i : nat) (w : Waypoint),
       mission_waypoints self !! i = Some w →
       markers !! i =
       Some (Point (pretty (Z.of_nat i + 1)) [coord w] (str_Waypoint w)
               (Some absolute) (Some 1) (Some false))).
Proof.
  intros coord. unfold kml. rewrite kml_waypoints_loop_spec, !app_nil_l.
  destruct (kml_search_area_loop _ _ _ _) as [search_area boundary_markers].
  destruct (getitem search_area 0);
    exists (static_point <$> locations self); eexists _, _;
    (split; [done|]); (split; [by rewrite length_imap|]);
    intros i w Hw; rewrite (kml_marker_lookup _ _ i w Hw);
    by rewrite (Z.add_comm 1).
Qed.

(** With at least one search grid point, the boundary of the search area
    polygon is the (longitude, latitude, altitude) of the grid points in
    listing order followed by those of the first point again (a closed
    ring), and there is one boundary marker per grid point, the marker of
    the point at index i being named i + 1, at the point's coordinates. *)
Theorem kml_closes_polygon (self : MissionConfig) (container : list Feature)
    (p : Waypoint) (ps : list Waypoint) :
  search_grid_points self = p :: ps →
  let coord (w : Waypoint) : Coord :=
    (longitude (gps_position (position w)),
     latitude (gps_position (position w)),
     Some (altitude_msl (position w))) in
  ∃ static_points waypoints_folder markers,
    kml self container =
    (container ++
       [Folder ("Mission " +:+ pretty (pk self))
          (static_points ++
           [waypoints_folder;
            Folder "Search Area"
              (Polygon "Search Area" ((coord <$> p :: ps) ++ [coord p])
                 (Some black) (Some 2) (Some (changealphaint 50 blue))
               :: markers)])],
     Returned tt) ∧
    length markers = length (p :: ps) ∧
    (∀ (i : nat) (w : Waypoint),
       (p :: ps) !! i = Some w →
       markers !! i =
       Some (Point (pretty (Z.of_nat i + 1)) [coord w] (str_Waypoint w)
               None None (Some false))).
Proof.
  intros Hgrid coord. unfold kml.
  destruct (kml_waypoints_loop _ _ _ _) as [waypoints waypoint_markers].
  rewrite kml_search_area_loop_spec, Hgrid, !app_nil_l.
  exists (static_point <$> locations self).
  eexists _,
    (imap (λ i w, Point (pretty (1 + Z.of_nat i)) [coord_of w]
                    (str_Waypoint w) None None (Some false)) (p :: ps)).
  split; [done|]. split; [by rewrite length_imap|].
  intros i w Hw. rewrite (kml_marker_lookup _ _ i w Hw).
  by rewrite (Z.add_comm 1).
Qed.

Lemma kml_outcome (self : MissionConfig) (container : list Feature) :
  (kml self container).2 =
  match search_grid_points self with
  | [] => Raised IndexError
  | _ :: _ => Returned tt
  end.
Proof.
  destruct (search_grid_points self) as [|p ps] eqn:Hgrid.
  - unfold kml.
    destruct (kml_waypoints_loop _ _ _ _) as [waypoints waypoint_markers].
    by rewrite Hgrid.
  - by apply (kml_returns self container p ps).
Qed.

Lemma kml_folder (self : MissionConfig) (container : list Feature) :
  ∃ features,
    (kml self container).1 =
    container ++ [Folder ("Mission " +:+ pretty (pk self)) features].
Proof.
  unfold kml.
  destruct (kml_waypoints_loop _ _ _ _) as [waypoints waypoint_markers].
  destruct (kml_search_area_loop _ _ _ _) as [search_area boundary_markers].
  destruct (getitem search_area 0); by eexists.
Qed.

(** [kml_all] raises [IndexError] exactly when some mission has no search
    grid point, and returns exactly when every mission has one. *)
Theorem kml_all_raises_iff (missions : list MissionConfig)
    (container : list Feature) :
  ((kml_all missions container).2 = Raised IndexError ↔
   ∃ mission, mission ∈ missions ∧ search_grid_points mission = []) ∧
  ((kml_all missions container).2 = Returned tt ↔
   ∀ mission, mission ∈ missions → search_grid_points mission ≠ []).
Proof.
  revert container. induction missions as [|m missions IH]; intros container.
  - simpl. split; split; try done.
    + intros (m & Hm & _). by apply elem_of_nil in Hm.
    + intros _ m Hm. by apply elem_of_nil in Hm.
  - cbn [kml_all]. pose proof (kml_outcome m container) as Hout.
    destruct (kml m container) as [container' [[]|exc]]; simpl in Hout.
    + destruct (search_grid_points m) as [|p ps] eqn:Hgrid; [done|].
      destruct (IH container') as [IHr IHt]. split.
      * rewrite IHr. split.
        -- intros (m' & Hm' & Hnone). exists m'. split; [by right|done].
        -- intros (m' & [->|Hm']%elem_of_cons & Hnone); [congruence|].
           by exists m'.
      * rewrite IHt. split.
        -- intros Hall m' [->|Hm']%elem_of_cons; [congruence|]. by apply Hall.
        -- intros Hall m' Hm'. apply Hall. by right.
    + destruct (search_grid_points m) as [|p ps] eqn:Hgrid; [|done].
      destruct exc. simpl. split; split; try done.
      * intros _. exists m. split; [by left|done].
      * intros Hall. exfalso. apply (Hall m); [by left|done].
Qed.

(** When every mission has a search grid point, [kml_all] adds one folder
    per mission to the container, in the order of the missions. *)
Theorem kml_all_appends (missions : list MissionConfig)
    (container : list Feature) :
  (∀ mission, mission ∈ missions → search_grid_points mission ≠ []) →
  ∃ folders,
    kml_all missions container = (container ++ folders, Returned tt) ∧
    feature_name <$> folders =
    (λ mission, "Mission " +:+ pretty (pk mission)) <$> missions.
Proof.
  revert container. induction missions as [|m missions IH];
    intros container Hall.
  - exists []. by rewrite app_nil_r.
  - cbn [kml_all]. pose proof (kml_outcome m container) as Hout.
    destruct (kml_folder m container) as [features Hfolder].
    destruct (kml m container) as [container' outcome]. simpl in *.
    destruct (search_grid_points m) as [|p ps] eqn:Hgrid.
    { exfalso. apply (Hall m); [by left|done]. }
    subst. destruct (IH (container ++ [Folder ("Mission " +:+ pretty (pk m)) features]))
      as (folders & -> & Hnames).
    { intros m' Hm'. apply Hall. by right. }
    exists (Folder ("Mission " +:+ pretty (pk m)) features :: folders).
    rewrite <- app_assoc. split; [done|]. rewrite !fmap_cons. by f_equal.
Qed.

(** The first mission without a search grid point ends [kml_all]: the
    missions before it are exported, its own folder stays in the container
    (without the polygon boundary), and the missions after it are not
    exported. *)
Theorem kml_all_stops (before after : list MissionConfig)
    (failing : MissionConfig) (container : list Feature) :
  (∀ mission, mission ∈ before → search_grid_points mission ≠ []) →
  search_grid_points failing = [] →
  ∃ folders,
    kml_all (before ++ failing :: after) container =
    (container ++ folders, Raised IndexError) ∧
    feature_name <$> folders =
    (λ mission, "Mission " +:+ pretty (pk mission)) <$> (before ++ [failing]).
Proof.
  revert container. induction before as [|m before IH];
    intros container Hall Hnone.
  - cbn [app kml_all]. pose proof (kml_outcome failing container) as Hout.
    destruct (kml_folder failing container) as [features Hfolder].
    destruct (kml failing container) as [container' outcome]. simpl in *.
    rewrite Hnone in Hout. subst.
    by exists [Folder ("Mission " +:+ pretty (pk failing)) features].
  - cbn [app kml_all]. pose proof (kml_outcome m container) as Hout.
    destruct (kml_folder m container) as [features Hfolder].
    destruct (kml m container) as [container' outcome]. simpl in *.
    destruct (search_grid_points m) as [|p ps] eqn:Hgrid.
    { exfalso. apply (Hall m); [by left|done]. }
    subst. destruct (IH (container ++ [Folder ("Mission " +:+ pretty (pk m)) features]))
      as (folders & -> & Hnames); [|done|].
    { intros m' Hm'. apply Hall. by right. }
    exists (Folder ("Mission " +:+ pretty (pk m)) features :: folders).
    rewrite <- app_assoc. split; [done|]. rewrite !fmap_cons. by f_equal.
Qed.

End KmlMore.

(** ** [json] *)

Lemma json_append_loop_other (key key' : string) (points : list Waypoint)
    (ret : gmap string JsonValue) :
  key ≠ key' → json_append_loop key points ret !! key' = ret !! key'.
Proof.
  intros Hne. revert ret. induction points as [|p points IH]; intros ret.
  - done.
  - simpl. rewrite IH. by apply lookup_alter_ne.
Qed.

Lemma json_append_loop_list (key : string) (points : list Waypoint)
    (ret : gmap string JsonValue) (items : list JsonValue) :
  ret !! key = Some (JList items) →
  json_append_loop key points ret !! key =
  Some (JList (items ++ (waypoint_json <$> points))).
Proof.
  revert ret items. induction points as [|p points IH]; intros ret items Hret.
  - simpl. by rewrite app_nil_r.
  - simpl. rewrite (IH _ (items ++ [waypoint_json p])).
    + by rewrite <- app_assoc.
    + by rewrite lookup_alter_eq, Hret.
Qed.

Lemma json_lists (self : MissionConfig) :
  json self !! "mission_waypoints" =
    Some (JList (waypoint_json <$> mission_waypoints self)) ∧
  json self !! "search_grid_points" =
    Some (JList (waypoint_json <$> search_grid_points self)).
Proof.
  unfold json. split.
  - rewrite json_append_loop_other by done.
    by rewrite (json_append_loop_list _ _ _ []).
  - rewrite (json_append_loop_list _ _ _ []); [done|].
    by rewrite json_append_loop_other.
Qed.

(** The entry [mission_waypoints] of the dictionary is a list with one
    dictionary per mission waypoint, in listing order, and the entry
    [search_grid_points] one per search grid point (the empty list for a
    mission without any); the dictionary of a row holds the row's key under
    [id], the latitude, longitude and altitude of its position under
    [latitude], [longitude] and [altitude_msl], its order under [order],
    and nothing else. *)
Theorem json_waypoint_lists (self : MissionConfig) (key : string)
    (rows : list Waypoint) :
  key = "mission_waypoints" ∧ rows = mission_waypoints self ∨
  key = "search_grid_points" ∧ rows = search_grid_points self →
  ∃ items,
    json self !! key = Some (JList items) ∧
    length items = length rows ∧
    ∀ (i : nat) (w : Waypoint),
      rows !! i = Some w →
      ∃ dict,
        items !! i = Some (JDict dict) ∧
        dict !! "id" = Some (JInt (waypoint_pk w)) ∧
        dict !! "latitude" =
          Some (JFloat (latitude (gps_position (position w)))) ∧
        dict !! "longitude" =
          Some (JFloat (longitude (gps_position (position w)))) ∧
        dict !! "altitude_msl" = Some (JFloat (altitude_msl (position w))) ∧
        dict !! "order" = Some (JInt (order w)) ∧
        ∀ field, is_Some (dict !! field) →
          field = "id" ∨ field = "latitude" ∨ field = "longitude" ∨
          field = "altitude_msl" ∨ field = "order".
Proof.
  intros Hkey. exists (waypoint_json <$> rows). split.
  { destruct (json_lists self) as [Hw Hg].
    by destruct Hkey as [[-> ->] | [-> ->]]. }
  split; [by rewrite length_fmap|].
  intros i w Hw. eexists. rewrite list_lookup_fmap, Hw.
  split; [done|]. do 5 (split; [done|]).
  intros field. rewrite !lookup_insert_is_Some, lookup_empty.
  intros [<-|[_ [<-|[_ [<-|[_ [<-|[_ [<-|[_ Hnone]]]]]]]]]];
    [auto 10..|by destruct Hnone].
Qed.

Lemma json_scalar (self : MissionConfig) (key : string) :
  key ≠ "mission_waypoints" → key ≠ "search_grid_points" →
  json self !! key =
  (<["air_drop_pos" := gps_json (air_drop_pos self)]>
  (<["ir_secondary_target_pos" := gps_json (ir_secondary_target_pos self)]>
  (<["ir_primary_target_pos" := gps_json (ir_primary_target_pos self)]>
  (<["sric_pos" := gps_json (sric_pos self)]>
  (<["off_axis_target_pos" := gps_json (off_axis_target_pos self)]>
  (<["emergent_last_known_pos" := gps_json (emergent_last_known_pos self)]>
  (<["mission_waypoints_dist_max" :=
       JFloat (mission_waypoints_dist_max self)]>
  (<["home_pos" := gps_json (home_pos self)]>
  (<["active" := JBool (is_active self)]>
  (<["id" := JInt (pk self)]> (∅ : gmap string JsonValue))))))))))) !! key.
Proof.
  intros Hw Hg. unfold json.
  rewrite !json_append_loop_other by done.
  rewrite !lookup_insert. repeat case_decide; congruence.
Qed.

Lemma JDict_inj (items items' : gmap string JsonValue) :
  JDict items = JDict items' → items = items'.
Proof. intros Heq. by injection Heq. Qed.

Lemma gps_json_inj (p q : GpsPosition) : gps_json p = gps_json q → p = q.
Proof.
  unfold gps_json. intros Heq%JDict_inj.
  pose proof (f_equal (.!! "latitude") Heq) as Hlat.
  pose proof (f_equal (.!! "longitude") Heq) as Hlon.
  rewrite !lookup_insert in Hlat, Hlon. simpl in Hlat, Hlon.
  destruct p, q. simpl in *. congruence.
Qed.

Lemma waypoint_json_inj (w w' : Waypoint) :
  waypoint_json w = waypoint_json w' → w = w'.
Proof.
  unfold waypoint_json. intros Heq%JDict_inj.
  pose proof (f_equal (.!! "id") Heq) as Hid.
  pose proof (f_equal (.!! "latitude") Heq) as Hlat.
  pose proof (f_equal (.!! "longitude") Heq) as Hlon.
  pose proof (f_equal (.!! "altitude_msl") Heq) as Halt.
  pose proof (f_equal (.!! "order") Heq) as Hord.
  rewrite !lookup_insert in Hid, Hlat, Hlon, Halt, Hord.
  simpl in Hid, Hlat, Hlon, Halt, Hord.
  destruct w as [k [[lat lon] alt] o], w' as [k' [[lat' lon'] alt'] o'].
  simpl in *. congruence.
Qed.

Lemma waypoint_json_list_inj (ws ws' : list Waypoint) :
  waypoint_json <$> ws = waypoint_json <$> ws' → ws = ws'.
Proof.
  revert ws'. induction ws as [|w ws IH]; intros [|w' ws'] Heq; try done.
  rewrite !fmap_cons in Heq. apply (inj2 cons) in Heq as [Hw Hws].
  f_equal; [by apply waypoint_json_inj|by apply IH].
Qed.

(** The dictionary determines every column of the mission that the model
    carries (all but [server_info]): missions with equal dictionaries have
    the same key, activity flag, threshold, positions and waypoint rows. *)
Theorem json_injective (self other : MissionConfig) :
  json self = json other → self = other.
Proof.
  intros Heq.
  pose proof (json_lists self) as [Hw Hg].
  pose proof (json_lists other) as [Hw' Hg'].
  rewrite Heq, Hw' in Hw. rewrite Heq, Hg' in Hg.
  assert (mission_waypoints other = mission_waypoints self) as Hwaypoints
    by (apply waypoint_json_list_inj; congruence).
  assert (search_grid_points other = search_grid_points self) as Hgrid
    by (apply waypoint_json_list_inj; congruence).
  clear Hw Hg Hw' Hg'.
  assert (∀ key, key ≠ "mission_waypoints" → key ≠ "search_grid_points" →
    json self !! key = json other !! key) as Hkey by (by rewrite Heq).
  pose proof (Hkey "id" ltac:(done) ltac:(done)) as Hid.
  pose proof (Hkey "active" ltac:(done) ltac:(done)) as Hactive.
  pose proof (Hkey "home_pos" ltac:(done) ltac:(done)) as Hhome.
  pose proof (Hkey "mission_waypoints_dist_max" ltac:(done) ltac:(done))
    as Hdist.
  pose proof (Hkey "emergent_last_known_pos" ltac:(done) ltac:(done))
    as Hemergent.
  pose proof (Hkey "off_axis_target_pos" ltac:(done) ltac:(done)) as Hoff.
  pose proof (Hkey "sric_pos" ltac:(done) ltac:(done)) as Hsric.
  pose proof (Hkey "ir_primary_target_pos" ltac:(done) ltac:(done)) as Hirp.
  pose proof (Hkey "ir_secondary_target_pos" ltac:(done) ltac:(done)) as Hirs.
  pose proof (Hkey "air_drop_pos" ltac:(done) ltac:(done)) as Hair.
  rewrite !json_scalar in Hid, Hactive, Hhome, Hdist, Hemergent, Hoff, Hsric,
    Hirp, Hirs, Hair by done.
  rewrite !lookup_insert in Hid, Hactive, Hhome, Hdist, Hemergent, Hoff,
    Hsric, Hirp, Hirs, Hair.
  simpl in Hid, Hactive, Hhome, Hdist, Hemergent, Hoff, Hsric, Hirp, Hirs,
    Hair.
  assert (home_pos self = home_pos other)
    by (apply gps_json_inj; congruence).
  assert (emergent_last_known_pos self = emergent_last_known_pos other)
    by (apply gps_json_inj; congruence).
  assert (off_axis_target_pos self = off_axis_target_pos other)
    by (apply gps_json_inj; congruence).
  assert (sric_pos self = sric_pos other)
    by (apply gps_json_inj; congruence).
  assert (ir_primary_target_pos self = ir_primary_target_pos other)
    by (apply gps_json_inj; congruence).
  assert (ir_secondary_target_pos self = ir_secondary_target_pos other)
    by (apply gps_json_inj; congruence).
  assert (air_drop_pos self = air_drop_pos other)
    by (apply gps_json_inj; congruence).
  clear Heq Hkey Hhome Hemergent Hoff Hsric Hirp Hirs Hair.
  destruct self, other. simpl in *. congruence.
Qed.

(** ** The properties on the concrete competition *)

Import Scenario.

Lemma scenario_users_distinct : NoDup (user_pk <$> User_objects_all db).
Proof. by apply (bool_decide_unpack _). Qed.

Lemma scenario_unique_pks : unique_pks db.
Proof. repeat split; by apply (bool_decide_unpack _). Qed.

(** Rows of equal [order] are evaluated in the order of the table: of the
    rows 20 and 21, both of order 1, the row 20 comes first, after the row
    22 of order 0; and with a log at 10 ft the first of two waypoints of
    order 1, at 10 ft and at 50 ft, is the satisfied one. *)
Lemma order_by_order_ties :
  waypoint_pk <$>
    order_by_order
      [waypoint_at 20 1 10%float; waypoint_at 21 1 50%float;
       waypoint_at 22 0 90%float] =
  [22; 20; 21].
Proof. reflexivity. Qed.

Lemma satisfied_waypoints_ties :
  satisfied_waypoints
    (mission_with [waypoint_at 20 1 10%float; waypoint_at 21 1 50%float] [])
    [10%float] =
  [true; false].
Proof. reflexivity. Qed.

(** The waypoint of order 2 is at exactly the threshold distance from the
    log at 30 ft, and further from the other: it is not satisfied. *)
Lemma satisfied_waypoints_iff_witness :
  ∃ satisfied,
    satisfied_waypoints mission [10; 30]%float !! 1%nat = Some satisfied ∧
    (satisfied = true ↔
     ∃ l, l ∈ [10; 30]%float ∧
       PrimFloat.ltb
         (distance_to (uas_position l) (position (waypoint_at 21 2 35%float)))
         (mission_waypoints_dist_max mission) = true) ∧
    ((∀ l, l ∈ [10; 30]%float →
        PrimFloat.eqb
          (distance_to (uas_position l) (position (waypoint_at 21 2 35%float)))
          (mission_waypoints_dist_max mission) = true) →
     satisfied = false) ∧
    ([10; 30]%float = [] → satisfied = false).
Proof.
  apply (satisfied_waypoints_iff mission [10; 30]%float 1
           (waypoint_at 21 2 35%float)).
  reflexivity.
Defined.

Lemma satisfied_waypoints_perm_witness :
  satisfied_waypoints mission [10; 30]%float =
  satisfied_waypoints mission [30; 10]%float.
Proof.
  apply (satisfied_waypoints_perm mission [10; 30]%float [30; 10]%float).
  apply Permutation_swap.
Defined.

Lemma evaluate_teams_no_admin_witness :
  evaluate_teams mission db !! 1 = None.
Proof.
  apply (evaluate_teams_no_admin mission db admin).
  - exact scenario_users_distinct.
  - by left.
  - reflexivity.
Defined.

Lemma evaluate_teams_waypoints_keyed_witness :
  ∃ keyed,
    (evaluate_teams mission db !! 2) ≫= waypoints_satisfied = Some keyed ∧
    keyed !! 1 = Some true ∧ keyed !! 2 = Some false.
Proof.
  destruct (evaluate_teams_waypoints_keyed mission db team)
    as (eval_data & keyed & Hdata & Hkeyed & _ & _ & Horder).
  - exact scenario_users_distinct.
  - right. by left.
  - reflexivity.
  - change (user_pk team) with 2 in Hdata.
    exists keyed. rewrite Hdata. split; [exact Hkeyed|]. split.
    + apply (Horder eq_refl (waypoint_at 20 1 12%float)). right. by left.
    + apply (Horder eq_refl (waypoint_at 21 2 35%float)). by left.
Defined.

(** C2 as stated fails: with waypoints of orders 1 and 3, the waypoint of
    order 3 has no entry under the key 3 (its entry is under the key 2). *)
Lemma waypoints_not_keyed_by_order :
  ¬ (∀ w, w ∈ mission_waypoints mission_gap →
       ∃ keyed,
         (evaluate_teams mission_gap db !! 2) ≫= waypoints_satisfied =
           Some keyed ∧
         is_Some (keyed !! order w)).
Proof.
  intros Hclaim.
  destruct (Hclaim (waypoint_at 21 3 31%float)) as (keyed & Hkeyed & Hsome).
  - right. by left.
  - vm_compute in Hkeyed. injection Hkeyed as <-.
    vm_compute in Hsome. by destruct Hsome.
Qed.

Lemma evaluate_teams_no_flights_witness :
  ∃ eval_data times entry,
    evaluate_teams mission db !! 3 = Some eval_data ∧
    out_of_bounds_time eval_data = Some 0%float ∧
    interop_times eval_data = Some times ∧
    times !! "uas_telem" = Some entry ∧
    entry !! "max" = Some None ∧ entry !! "avg" = Some None ∧
    (stationary_obst_collision eval_data ≫= (.!! 7)) = Some false.
Proof.
  destruct (evaluate_teams_no_flights mission db idle)
    as (eval_data & keyed & times & stationary & moving & Hdata & _ & _
        & Hoob & Htimes & Hrates & _ & Hstat & Hkeys & _).
  - exact scenario_users_distinct.
  - right. right. by left.
  - reflexivity.
  - reflexivity.
  - reflexivity.
  - reflexivity.
  - reflexivity.
  - reflexivity.
  - reflexivity.
  - intros o _. reflexivity.
  - intros [d] _. reflexivity.
  - destruct (Hrates "uas_telem") as (entry & Hentry & Hmax & Havg & _).
    { right. by right. }
    exists eval_data, times, entry.
    split; [exact Hdata|]. split; [exact Hoob|]. split; [exact Htimes|].
    split; [exact Hentry|]. split; [exact Hmax|]. split; [exact Havg|].
    rewrite Hstat. simpl. rewrite Hkeys.
    rewrite bool_decide_eq_true_2; [reflexivity|]. by left.
Defined.

Lemma evaluate_teams_out_of_bounds_sum_witness :
  ∃ eval_data,
    evaluate_teams mission db !! 2 = Some eval_data ∧
    out_of_bounds_time eval_data = Some 1%float.
Proof.
  destruct (evaluate_teams_out_of_bounds_sum mission db team)
    as (eval_data & Hdata & Hoob).
  - exact scenario_users_distinct.
  - right. by left.
  - reflexivity.
  - exists eval_data. split; [exact Hdata|]. rewrite Hoob. reflexivity.
Defined.

Lemma evaluate_teams_collisions_witness :
  ∃ eval_data stationary moving,
    evaluate_teams mission db !! 2 = Some eval_data ∧
    stationary_obst_collision eval_data = Some stationary ∧
    moving_obst_collision eval_data = Some moving ∧
    stationary !! 7 = Some true ∧ moving !! 7 = Some false.
Proof.
  destruct (evaluate_teams_collisions mission db team)
    as (eval_data & stationary & moving & Hdata & Hstat & Hmov & Hs & Hm & _).
  - exact scenario_unique_pks.
  - right. by left.
  - reflexivity.
  - exists eval_data, stationary, moving.
    split; [exact Hdata|]. split; [exact Hstat|]. split; [exact Hmov|]. split.
    + apply (Hs tower). by left.
    + apply (Hm balloon). by left.
Defined.

Lemma evaluate_teams_interop_times_witness :
  ∃ eval_data times,
    evaluate_teams mission db !! 2 = Some eval_data ∧
    interop_times eval_data = Some times ∧
    times !! "uas_telem" ≫= (.!! "max") = Some (Some 1%float) ∧
    times !! "server_info" ≫= (.!! "avg") = Some (Some 7.5%float).
Proof.
  destruct (evaluate_teams_interop_times mission db team)
    as (eval_data & times & Hdata & Htimes & Hmax & _ & _ & Havg & _).
  - exact scenario_users_distinct.
  - right. by left.
  - reflexivity.
  - exists eval_data, times.
    split; [exact Hdata|]. split; [exact Htimes|]. split.
    + exact Hmax.
    + exact Havg.
Defined.

Lemma evaluate_teams_users_perm_witness :
  evaluate_teams mission db = evaluate_teams mission db_reordered.
Proof.
  apply (evaluate_teams_users_perm mission db [idle; admin; team]).
  - exact scenario_users_distinct.
  - change [admin; team; idle] with ([admin; team] ++ [idle]).
    apply (Permutation_app_comm [admin; team] [idle]).
Defined.

Lemma kml_empty_search_grid_witness :
  (kml mission []).2 = Raised IndexError.
Proof. apply (kml_empty_search_grid mission []). reflexivity. Defined.


(** ** The further properties on the concrete competition *)

Lemma satisfied_waypoints_same_elements_witness :
  satisfied_waypoints mission [10; 10; 30]%float =
  satisfied_waypoints mission [30; 10]%float.
Proof.
  apply (satisfied_waypoints_same_elements mission
           [10; 10; 30]%float [30; 10]%float).
  intros l. rewrite !elem_of_cons, !elem_of_nil. tauto.
Defined.

Lemma evaluate_teams_full_records_witness :
  full_record (default empty_eval_data (evaluate_teams mission db !! 2)).
Proof.
  apply (evaluate_teams_full_records mission db 2). reflexivity.
Defined.

Lemma evaluate_teams_independent_witness :
  evaluate_teams mission db !! 2 =
  evaluate_teams mission
    {| User_objects_all := [team];
       FlyZone_objects_all := [];
       StationaryObstacle_objects_all := [tower];
       MovingObstacle_objects_all := [balloon] |} !! 2.
Proof.
  apply (evaluate_teams_independent mission db team).
  - exact scenario_users_distinct.
  - right. by left.
Defined.

(** The waypoint of order 1, at 12 ft, is hit by the log at 10 ft of the one
    flight period. *)
Lemma evaluate_teams_hit_in_some_period_witness :
  ∃ eval_data keyed,
    evaluate_teams mission db !! 2 = Some eval_data ∧
    waypoints_satisfied eval_data = Some keyed ∧
    keyed !! 1 = Some true.
Proof.
  destruct (evaluate_teams_hit_in_some_period mission db team 0
              (waypoint_at 20 1 12%float))
    as (eval_data & keyed & Hdata & Hkeyed & Hhit).
  - exact scenario_users_distinct.
  - right. by left.
  - reflexivity.
  - reflexivity.
  - exists eval_data, keyed. split; [exact Hdata|]. split; [exact Hkeyed|].
    apply Hhit. exists [10; 30]%float, 10%float.
    split; [by left|]. split; [by left|reflexivity].
Defined.

Lemma evaluate_teams_empty_tables_witness :
  ∃ eval_data,
    evaluate_teams (mission_with [] []) db !! 2 = Some eval_data ∧
    waypoints_satisfied eval_data = Some ∅.
Proof.
  destruct (evaluate_teams_empty_tables (mission_with [] []) db team)
    as (eval_data & Hdata & Hwaypoints & _).
  - exact scenario_users_distinct.
  - right. by left.
  - reflexivity.
  - exists eval_data. split; [exact Hdata|]. apply Hwaypoints. reflexivity.
Defined.

(** The grid points at 0, 40 and 20 ft give the ring 0, 40, 20, 0. *)
Lemma kml_closes_polygon_witness :
  ∃ static_points waypoints_folder markers,
    kml mission_grid [] =
    ([Folder "Mission 1"
        (static_points ++
         [waypoints_folder;
          Folder "Search Area"
            (Polygon "Search Area"
               [(0, 0, Some 0); (0, 40, Some 0); (0, 20, Some 0);
                (0, 0, Some 0)]%float
               (Some black) (Some 2) (Some (changealphaint 50 blue))
             :: markers)])],
     Returned tt) ∧
    markers !! 2%nat =
    Some (Point "3" [(0, 20, Some 0)%float] "Waypoint" None None (Some false)).
Proof.
  destruct (kml_closes_polygon mission_grid [] (waypoint_at 30 1 0%float)
              [waypoint_at 31 2 40%float; waypoint_at 32 3 20%float])
    as (static_points & waypoints_folder & markers & Hkml & _ & Hmarkers).
  - reflexivity.
  - exists static_points, waypoints_folder, markers.
    split; [exact Hkml|].
    exact (Hmarkers 2%nat (waypoint_at 32 3 20%float) eq_refl).
Defined.

Lemma kml_all_appends_witness :
  (kml_all [mission_grid; mission_grid] []).2 = Returned tt.
Proof.
  destruct (kml_all_appends [mission_grid; mission_grid] [])
    as (folders & Hall & _).
  - intros m Hm. rewrite !elem_of_cons, elem_of_nil in Hm.
    destruct Hm as [-> | [-> | []]]; discriminate.
  - rewrite Hall. reflexivity.
Defined.

Lemma kml_all_stops_witness :
  (kml_all [mission_grid; mission; mission_grid] []).2 = Raised IndexError.
Proof.
  destruct (kml_all_stops [mission_grid] [mission_grid] mission [])
    as (folders & Hall & _).
  - intros m Hm. rewrite !elem_of_cons, elem_of_nil in Hm.
    destruct Hm as [-> | []]. discriminate.
  - reflexivity.
  - change ([mission_grid] ++ mission :: [mission_grid])
      with [mission_grid; mission; mission_grid] in Hall.
    rewrite Hall. reflexivity.
Defined.

(** The second search grid point (key 31, order 2, at 40 ft). *)
Lemma json_waypoint_lists_witness :
  ∃ items dict,
    json mission_grid !! "search_grid_points" = Some (JList items) ∧
    length items = 3%nat ∧
    items !! 1%nat = Some (JDict dict) ∧
    dict !! "id" = Some (JInt 31) ∧
    dict !! "latitude" = Some (JFloat 40%float) ∧
    dict !! "order" = Some (JInt 2).
Proof.
  destruct (json_waypoint_lists mission_grid "search_grid_points"
              (search_grid_points mission_grid))
    as (items & Hitems & Hlength & Hrows).
  - right. split; reflexivity.
  - destruct (Hrows 1%nat (waypoint_at 31 2 40%float) eq_refl)
      as (dict & Hdict & Hid & Hlat & _ & _ & Horder & _).
    exists items, dict.
    split; [exact Hitems|]. split; [exact Hlength|]. split; [exact Hdict|].
    split; [exact Hid|]. split; [exact Hlat|exact Horder].
Defined.

Lemma json_injective_witness :
  mission_with [waypoint_at 21 2 35%float; waypoint_at 20 1 12%float] []
  = mission.
Proof.
  apply (json_injective
           (mission_with
              [waypoint_at 21 2 35%float; waypoint_at 20 1 12%float] [])
           mission).
  reflexivity.
Defined.
